(** * RelayConnection: the relay connection service of emberclear

    A shallow embedding of
    [packages/frontend/src/services/relay-connection.ts].

    The service keeps three fields ([socket], [channel], [connected]) and
    talks to five collaborators: the identity service, the relay manager,
    the toast/console outputs, the message processor and dispatcher, and the
    phoenix client ([Socket], [Channel], [Push]).  Every method of the class
    is a computation in a state monad over a [World] that holds the fields
    of the service, the JavaScript objects it has created and the trace of
    calls it has made on its collaborators. *)

From Stdlib Require Import Strings.Byte Strings.Ascii NArith.
From stdpp Require Import base option list strings.

Open Scope string_scope.
Open Scope list_scope.

(** ** JavaScript values *)

(** Replies of the relay, console arguments and payloads are plain data. *)
#[warnings="-register-all"]
Inductive JsVal :=
| JUndefined
| JStr (s : string)
| JObj (fields : list (string * JsVal)).

(** ** Collaborators *)

(** The identity service, as [RelayConnection] reads it: the result of the
    asynchronous [exists()] and the synchronous [publicKey] property.  The
    service itself is not among the sources at hand, so both members are
    inputs here and may take any value. *)
Record IdentityService := {
  identity_exists : bool;
  publicKey : option (list byte);
}.

(** [relayManager.getRelay()] returns a record whose [socket] is the URL. *)
Record Relay := { relay_socket : string }.

(** Modelled from the spec: [toHex] of [emberclear/src/utils/string-encoding]
    is not part of the sources at hand.  The spec calls the identifier
    the hex-encoded public key and gives bytes [0x0a, 0xb1] as ["0ab1"]:
    two lower-case digits for each byte, high nibble first. *)
Definition hexDigit (n : N) : ascii :=
  match n with
  | 0 => "0" | 1 => "1" | 2 => "2" | 3 => "3" | 4 => "4" | 5 => "5"
  | 6 => "6" | 7 => "7" | 8 => "8" | 9 => "9" | 10 => "a" | 11 => "b"
  | 12 => "c" | 13 => "d" | 14 => "e" | _ => "f"
  end%N%char.

Definition byteToHex (b : byte) : string :=
  let n := Byte.to_N b in
  String (hexDigit (n / 16)) (String (hexDigit (n mod 16)) EmptyString).

Fixpoint toHex (bytes : list byte) : string :=
  match bytes with
  | [] => ""
  | b :: rest => byteToHex b +:+ toHex rest
  end.

(** ** Objects of the phoenix client *)

(** The functions the service hands to phoenix and to [Promise].  All of
    them are arrow functions closed over the one service instance, or the
    [resolve]/[reject] pair of a promise. *)
Inductive Callback :=
| CbOnSocketError
| CbOnSocketClose
| CbOnChannelError
| CbOnChannelClose
| CbHandleError
| CbHandleConnected
| CbHandleMessage
| CbJoinTimeout
| CbResolve (p : nat)
| CbReject (p : nat)
| CbRejectTimeout (p : nat).

(** [new Socket(url, { params: { uid } })].  [sock_conn] tells whether the
    socket holds a transport: [connect()] sets it, [disconnect()] drops it. *)
Record Socket := {
  sock_endPoint : string;
  sock_uid : string;
  sock_onError : list Callback;
  sock_onClose : list Callback;
  sock_conn : bool;
}.

(** The states a phoenix channel goes through. *)
Inductive ChannelState := closed | errored | joined | joining | leaving.

(** [socket.channel(topic, {})].  [onError] and [onClose] are bindings for
    the events ["phx_error"] and ["phx_close"]. *)
Record Channel := {
  chan_topic : string;
  chan_socket : nat;
  chan_state : ChannelState;
  chan_bindings : list (string * Callback);
  chan_joinPush : option nat;
}.

(** The object returned by [channel.join()] and [channel.push(..)]. *)
Record Push := {
  push_channel : nat;
  push_event : string;
  push_payload : JsVal;
  push_recHooks : list (string * Callback);
  push_receivedResp : option (string * JsVal);
}.

Inductive PromiseState :=
| Pending
| Fulfilled (value : JsVal)
| Rejected (reason : JsVal).

(** ** The calls the service makes on its collaborators *)
Inductive Effect :=
| ToastInfo (msg : string)
| ToastError (msg : string)
| ToastSuccess (msg : string)
| ConsoleError (v : JsVal)
| ConsoleLog (v : JsVal)
| ConsoleInfo (v : JsVal)
| SocketConnect (s : nat)
| SocketDisconnect (s : nat)
| ChannelJoin (c : nat)
| ChannelPush (c : nat) (event : string) (payload : JsVal)
| ProcessorReceive (data : JsVal)
| DispatcherPingAll.

(** The calls on the phoenix client, the only way to the network. *)
Definition isNetwork (e : Effect) : bool :=
  match e with
  | SocketConnect _ | SocketDisconnect _ | ChannelJoin _ | ChannelPush _ _ _ => true
  | _ => false
  end.

(** ** The service and its world *)

(** The fields of [class RelayConnection]. *)
Record RelayConnection := {
  socket : option nat;
  channel : option nat;
  connected : bool;
}.

Record World := {
  this : RelayConnection;
  identity : IdentityService;
  relayManager : Relay;
  sockets : list Socket;
  channels : list Channel;
  pushes : list Push;
  promises : list PromiseState;
  effects : list Effect;
}.

Definition with_this (f : RelayConnection → RelayConnection) (w : World) : World :=
  {| this := f (this w); identity := identity w; relayManager := relayManager w;
     sockets := sockets w; channels := channels w; pushes := pushes w;
     promises := promises w; effects := effects w |}.

Definition with_sockets (f : list Socket → list Socket) (w : World) : World :=
  {| this := this w; identity := identity w; relayManager := relayManager w;
     sockets := f (sockets w); channels := channels w; pushes := pushes w;
     promises := promises w; effects := effects w |}.

Definition with_channels (f : list Channel → list Channel) (w : World) : World :=
  {| this := this w; identity := identity w; relayManager := relayManager w;
     sockets := sockets w; channels := f (channels w); pushes := pushes w;
     promises := promises w; effects := effects w |}.

Definition with_pushes (f : list Push → list Push) (w : World) : World :=
  {| this := this w; identity := identity w; relayManager := relayManager w;
     sockets := sockets w; channels := channels w; pushes := f (pushes w);
     promises := promises w; effects := effects w |}.

Definition with_promises (f : list PromiseState → list PromiseState) (w : World) : World :=
  {| this := this w; identity := identity w; relayManager := relayManager w;
     sockets := sockets w; channels := channels w; pushes := pushes w;
     promises := f (promises w); effects := effects w |}.

Definition with_effects (f : list Effect → list Effect) (w : World) : World :=
  {| this := this w; identity := identity w; relayManager := relayManager w;
     sockets := sockets w; channels := channels w; pushes := pushes w;
     promises := promises w; effects := f (effects w) |}.

(** A new service instance: no socket, no channel, [connected = false]. *)
Definition init (i : IdentityService) (r : Relay) : World :=
  {| this := {| socket := None; channel := None; connected := false |};
     identity := i; relayManager := r;
     sockets := []; channels := []; pushes := []; promises := []; effects := [] |}.

(** ** The state monad *)

Definition M (A : Type) : Type := World → A * World.

#[global] Instance M_ret : MRet M := λ A a w, (a, w).
#[global] Instance M_bind : MBind M := λ A B k m w, let (a, w') := m w in k a w'.

Definition gets {A} (f : World → A) : M A := λ w, (f w, w).
Definition modify (f : World → World) : M unit := λ w, (tt, f w).
Definition exec {A} (m : M A) (w : World) : World := snd (m w).
Definition eval {A} (m : M A) (w : World) : A := fst (m w).

Inductive SendResult :=
| RetUndefined
| RetPromise (p : nat).

Section Service.

(** [intl.t]: the lookup of a localized string by its key. *)
Variable t : string → string.

(** *** Outputs: toast, console, processor, dispatcher *)

Definition emit (e : Effect) : M unit := modify (with_effects (λ es, es ++ [e])).

Definition toast_info (msg : string) : M unit := emit (ToastInfo msg).
Definition toast_error (msg : string) : M unit := emit (ToastError msg).
Definition toast_success (msg : string) : M unit := emit (ToastSuccess msg).
Definition console_error (v : JsVal) : M unit := emit (ConsoleError v).
Definition console_log (v : JsVal) : M unit := emit (ConsoleLog v).
Definition console_info (v : JsVal) : M unit := emit (ConsoleInfo v).
Definition processor_receive (data : JsVal) : M unit := emit (ProcessorReceive data).
Definition dispatcher_pingAll : M unit := emit DispatcherPingAll.

(** *** [this.set(field, value)] *)

Definition set_socket (s : nat) : M unit :=
  modify (with_this (λ r,
    {| socket := Some s; channel := channel r; connected := connected r |})).

Definition set_channel (c : nat) : M unit :=
  modify (with_this (λ r,
    {| socket := socket r; channel := Some c; connected := connected r |})).

Definition set_connected (b : bool) : M unit :=
  modify (with_this (λ r,
    {| socket := socket r; channel := channel r; connected := b |})).

(** *** The phoenix client, as far as the service drives it

    Objects live in lists; a reference is an index and a new object goes
    to the end.  A call on a reference that names no object does nothing
    (the service only ever holds references it has created). *)

Definition new_Socket (url uid : string) : M nat := λ w,
  (length (sockets w),
   with_sockets (λ l, l ++ [{| sock_endPoint := url; sock_uid := uid;
                               sock_onError := []; sock_onClose := [];
                               sock_conn := false |}]) w).

Definition socket_onError (s : nat) (cb : Callback) : M unit :=
  modify (with_sockets (alter (λ o,
    {| sock_endPoint := sock_endPoint o; sock_uid := sock_uid o;
       sock_onError := sock_onError o ++ [cb]; sock_onClose := sock_onClose o;
       sock_conn := sock_conn o |}) s)).

Definition socket_onClose (s : nat) (cb : Callback) : M unit :=
  modify (with_sockets (alter (λ o,
    {| sock_endPoint := sock_endPoint o; sock_uid := sock_uid o;
       sock_onError := sock_onError o; sock_onClose := sock_onClose o ++ [cb];
       sock_conn := sock_conn o |}) s)).

Definition set_conn (b : bool) (o : Socket) : Socket :=
  {| sock_endPoint := sock_endPoint o; sock_uid := sock_uid o;
     sock_onError := sock_onError o; sock_onClose := sock_onClose o;
     sock_conn := b |}.

Definition socket_connect (s : nat) : M unit :=
  modify (with_sockets (alter (set_conn true) s));;
  emit (SocketConnect s).

(** [disconnect()] drops the transport, if there is one. *)
Definition socket_disconnect (s : nat) : M unit :=
  modify (with_sockets (alter (set_conn false) s));;
  emit (SocketDisconnect s).

Definition socket_channel (s : nat) (topic : string) : M nat := λ w,
  (length (channels w),
   with_channels (λ l, l ++ [{| chan_topic := topic; chan_socket := s;
                                chan_state := closed; chan_bindings := [];
                                chan_joinPush := None |}]) w).

Definition channel_on (c : nat) (event : string) (cb : Callback) : M unit :=
  modify (with_channels (alter (λ o,
    {| chan_topic := chan_topic o; chan_socket := chan_socket o;
       chan_state := chan_state o;
       chan_bindings := chan_bindings o ++ [(event, cb)];
       chan_joinPush := chan_joinPush o |}) c)).

Definition channel_onError (c : nat) (cb : Callback) : M unit :=
  channel_on c "phx_error" cb.

Definition channel_onClose (c : nat) (cb : Callback) : M unit :=
  channel_on c "phx_close" cb.

Definition set_state (st : ChannelState) (o : Channel) : Channel :=
  {| chan_topic := chan_topic o; chan_socket := chan_socket o;
     chan_state := st; chan_bindings := chan_bindings o;
     chan_joinPush := chan_joinPush o |}.

Definition new_Push (c : nat) (event : string) (payload : JsVal) : M nat := λ w,
  (length (pushes w),
   with_pushes (λ l, l ++ [{| push_channel := c; push_event := event;
                              push_payload := payload; push_recHooks := [];
                              push_receivedResp := None |}]) w).

(** [channel.join()]: the channel starts joining and the join request goes
    out; the result is the join push, to hang [receive] hooks on. *)
Definition channel_join (c : nat) : M nat :=
  p ← new_Push c "phx_join" (JObj []);
  modify (with_channels (alter (λ o,
    {| chan_topic := chan_topic o; chan_socket := chan_socket o;
       chan_state := joining; chan_bindings := chan_bindings o;
       chan_joinPush := Some p |}) c));;
  emit (ChannelJoin c);;
  mret p.

Definition channel_push (c : nat) (event : string) (payload : JsVal) : M nat :=
  p ← new_Push c event payload;
  emit (ChannelPush c event payload);;
  mret p.

(** [push.receive(status, callback)] returns the push, for chaining.  The
    service only calls it on a push it has just made, which has no
    response yet. *)
Definition push_receive (p : nat) (status : string) (cb : Callback) : M nat :=
  modify (with_pushes (alter (λ o,
    {| push_channel := push_channel o; push_event := push_event o;
       push_payload := push_payload o;
       push_recHooks := push_recHooks o ++ [(status, cb)];
       push_receivedResp := push_receivedResp o |}) p));;
  mret p.

(** *** Promises: the first [resolve] or [reject] settles, later ones are
    ignored. *)

Definition new_Promise : M nat := λ w,
  (length (promises w), with_promises (λ l, l ++ [Pending]) w).

Definition settle (st : PromiseState) (old : PromiseState) : PromiseState :=
  match old with
  | Pending => st
  | _ => old
  end.

Definition promise_resolve (p : nat) (v : JsVal) : M unit :=
  modify (with_promises (alter (settle (Fulfilled v)) p)).

Definition promise_reject (p : nat) (v : JsVal) : M unit :=
  modify (with_promises (alter (settle (Rejected v)) p)).

(** ** The methods of [RelayConnection] *)

Definition send (to data : string) : M SendResult :=
  let payload := JObj [("to", JStr to); ("message", JStr data)] in
  chan ← gets (channel ∘ this);
  match chan with
  | None =>
      console_error (JStr (t "connection.errors.send.notConnected"));;
      mret RetUndefined
  | Some chan =>
      promise ← new_Promise;
      push ← channel_push chan "chat" payload;
      push ← push_receive push "ok" (CbResolve promise);
      push ← push_receive push "error" (CbReject promise);
      push_receive push "timeout" (CbRejectTimeout promise);;
      mret (RetPromise promise)
  end.

Definition canConnect : M bool := gets (identity_exists ∘ identity).

Definition userChannelId : M string :=
  key ← gets (publicKey ∘ identity);
  match key with
  | None => mret ""
  | Some key => mret (toHex key)
  end.

Definition subscribeToChannel (channelName : string) : M unit :=
  sock ← gets (socket ∘ this);
  match sock with
  | None => toast_error (t "connection.errors.subscribe.notConnected")
  | Some sock =>
      chan ← socket_channel sock channelName;
      set_channel chan;;
      channel_onError chan CbOnChannelError;;
      channel_onClose chan CbOnChannelClose;;
      channel_on chan "chat" CbHandleMessage;;
      push ← channel_join chan;
      push ← push_receive push "ok" CbHandleConnected;
      push ← push_receive push "error" CbHandleError;
      push_receive push "timeout" CbJoinTimeout;;
      mret tt
  end.

(** [connect] is [async]: it awaits [canConnect()] and then runs to its
    end without another suspension. *)
Definition connect : M unit :=
  canConnect' ← canConnect;
  connected' ← gets (connected ∘ this);
  if negb canConnect' || connected' then mret tt else
  toast_info (t "connection.connecting");;
  key ← userChannelId;
  url ← gets (relay_socket ∘ relayManager);
  sock ← new_Socket url key;
  set_socket sock;;
  socket_onError sock CbOnSocketError;;
  socket_onClose sock CbOnSocketClose;;
  socket_connect sock;;
  subscribeToChannel ("user:" +:+ key);;
  set_connected true;;
  dispatcher_pingAll.

Definition onSocketError : M unit :=
  toast_error (t "connection.status.socket.error").

Definition onSocketClose : M unit :=
  toast_info (t "connection.status.socket.close");;
  set_connected false.

Definition onChannelError : M unit :=
  console_log (JStr "channel errored");;
  sock ← gets (socket ∘ this);
  match sock with
  | Some sock => socket_disconnect sock
  | None => mret tt
  end.

Definition onChannelClose : M unit :=
  console_log (JStr "channel closed");;
  sock ← gets (socket ∘ this);
  match sock with
  | Some sock => socket_disconnect sock
  | None => mret tt
  end.

Definition handleError (data : JsVal) : M unit := console_error data.

Definition handleConnected : M unit :=
  toast_success (t "connection.connected").

Definition handleMessage (data : JsVal) : M unit := processor_receive data.

(** ** Delivery of events *)

(** What each registered function does when it is called with [arg]. *)
Definition call (cb : Callback) (arg : JsVal) : M unit :=
  match cb with
  | CbOnSocketError => onSocketError
  | CbOnSocketClose => onSocketClose
  | CbOnChannelError => onChannelError
  | CbOnChannelClose => onChannelClose
  | CbHandleError => handleError arg
  | CbHandleConnected => handleConnected
  | CbHandleMessage => handleMessage arg
  | CbJoinTimeout => console_info (JStr (t "connection.status.timeout"))
  | CbResolve p => promise_resolve p arg
  | CbReject p => promise_reject p arg
  | CbRejectTimeout p =>
      promise_reject p (JObj [("reason", JStr (t "models.message.errors.timeout"))])
  end.

Fixpoint callAll (cbs : list Callback) (arg : JsVal) : M unit :=
  match cbs with
  | [] => mret tt
  | cb :: rest => call cb arg;; callAll rest arg
  end.

(** The functions bound to [name], in the order they were registered. *)
Definition bound (name : string) (l : list (string * Callback)) : list Callback :=
  snd <$> filter (λ b, String.eqb (fst b) name = true) l.

(** The socket reports a transport error, or that the transport closed. *)
Definition socket_error (s : nat) : M unit :=
  o ← gets (λ w, sockets w !! s);
  match o with
  | Some o => callAll (sock_onError o) JUndefined
  | None => mret tt
  end.

Definition socket_close (s : nat) : M unit :=
  o ← gets (λ w, sockets w !! s);
  match o with
  | Some o => callAll (sock_onClose o) JUndefined
  | None => mret tt
  end.

(** An event on a channel: ["phx_error"] and ["phx_close"] change the
    state of the channel, then the bound functions run with the payload. *)
Definition channel_trigger (c : nat) (event : string) (payload : JsVal) : M unit :=
  o ← gets (λ w, channels w !! c);
  match o with
  | Some o =>
      (if String.eqb event "phx_error"
       then modify (with_channels (alter (set_state errored) c))
       else if String.eqb event "phx_close"
       then modify (with_channels (alter (set_state closed) c))
       else mret tt);;
      callAll (bound event (chan_bindings o)) payload
  | None => mret tt
  end.

(** The outcome of a join: ["ok"] makes the channel joined, anything else
    leaves it errored. *)
Definition join_outcome (p : nat) (status : string) (o : Channel) : Channel :=
  if bool_decide (chan_joinPush o = Some p)
  then set_state (if String.eqb status "ok" then joined else errored) o
  else o.

(** The reply to a push (or its timeout, with status ["timeout"]): the
    response is recorded and the hooks for that status run with it. *)
Definition push_reply (p : nat) (status : string) (response : JsVal) : M unit :=
  o ← gets (λ w, pushes w !! p);
  match o with
  | Some o =>
      modify (with_pushes (alter (λ o,
        {| push_channel := push_channel o; push_event := push_event o;
           push_payload := push_payload o; push_recHooks := push_recHooks o;
           push_receivedResp := Some (status, response) |}) p));;
      modify (with_channels (alter (join_outcome p status) (push_channel o)));;
      callAll (bound status (push_recHooks o)) response
  | None => mret tt
  end.

(** ** The transition system

    Callers invoke the public methods; phoenix delivers events, one at a
    time and in any order; the identity and the selected relay can change
    between two of them. *)
Inductive Action :=
| Connect
| Send (to data : string)
| SubscribeToChannel (channelName : string)
| SocketError (s : nat)
| SocketClose (s : nat)
| ChannelEvent (c : nat) (event : string) (payload : JsVal)
| PushReply (p : nat) (status : string) (response : JsVal)
| IdentityChanged (i : IdentityService)
| RelayChanged (r : Relay).

Definition with_identity (i : IdentityService) (w : World) : World :=
  {| this := this w; identity := i; relayManager := relayManager w;
     sockets := sockets w; channels := channels w; pushes := pushes w;
     promises := promises w; effects := effects w |}.

Definition with_relay (r : Relay) (w : World) : World :=
  {| this := this w; identity := identity w; relayManager := r;
     sockets := sockets w; channels := channels w; pushes := pushes w;
     promises := promises w; effects := effects w |}.

(** An event needs the object it comes from, and a push is answered once. *)
Definition step (a : Action) (w : World) : option World :=
  match a with
  | Connect => Some (exec connect w)
  | Send to data => Some (exec (send to data) w)
  | SubscribeToChannel channelName => Some (exec (subscribeToChannel channelName) w)
  | SocketError s =>
      match sockets w !! s with
      | Some _ => Some (exec (socket_error s) w)
      | None => None
      end
  | SocketClose s =>
      match sockets w !! s with
      | Some _ => Some (exec (socket_close s) w)
      | None => None
      end
  | ChannelEvent c event payload =>
      match channels w !! c with
      | Some _ => Some (exec (channel_trigger c event payload) w)
      | None => None
      end
  | PushReply p status response =>
      match pushes w !! p with
      | Some o =>
          match push_receivedResp o with
          | None => Some (exec (push_reply p status response) w)
          | Some _ => None
          end
      | None => None
      end
  | IdentityChanged i => Some (with_identity i w)
  | RelayChanged r => Some (with_relay r w)
  end.

Fixpoint run (actions : list Action) (w : World) : option World :=
  match actions with
  | [] => Some w
  | a :: rest =>
      match step a w with
      | Some w' => run rest w'
      | None => None
      end
  end.

Inductive reachable : World → Prop :=
| reachable_init i r : reachable (init i r)
| reachable_step a w w' : reachable w → step a w = Some w' → reachable w'.

End Service.

(** * EmbeddedResource: the link preview component

    A shallow embedding of the component that classifies a URL as a
    YouTube link or an image and fetches its Open Graph data. *)

(** ** JavaScript strings and regular expressions

    A string is a list of UTF-16 code units.  The two patterns of the
    component use literals, the dot, the word class, one negated class,
    the start anchor, the greedy star over one-unit atoms, alternation and
    capture groups, and are
    matched as [String.prototype.match] does for a pattern without flags:
    by backtracking, leftmost start first. *)

Definition codes (s : string) : list N := N_of_ascii <$> String.list_ascii_of_string s.

Inductive Regex :=
| Bol
| Eps
| Atom (p : N → bool)
| Seq (r1 r2 : Regex)
| Alt (r1 r2 : Regex)
| Star (p : N → bool)
| Group (n : nat) (r : Regex).

(** A literal code unit, the dot (any unit but a line terminator), the
    word class and a negated class. *)
Definition chr (c : ascii) (u : N) : bool := N.eqb (N_of_ascii c) u.

Definition dot (u : N) : bool :=
  negb (N.eqb u 10 || N.eqb u 13 || N.eqb u 8232 || N.eqb u 8233).

Definition word (u : N) : bool :=
  (N.leb 65 u && N.leb u 90) || (N.leb 97 u && N.leb u 122) ||
  (N.leb 48 u && N.leb u 57) || N.eqb u 95.

Definition noneOf (cs : string) (u : N) : bool :=
  negb (existsb (N.eqb u) (codes cs)).

Fixpoint lit (s : string) : Regex :=
  match s with
  | EmptyString => Eps
  | String c rest => Seq (Atom (chr c)) (lit rest)
  end.

(** The captures of a match: group [0] is the whole match. *)
Definition Captures : Type := nat → option (list N).

Definition noCaptures : Captures := λ _, None.

Definition capture (n : nat) (x : list N) (caps : Captures) : Captures :=
  λ i, if Nat.eqb i n then Some x else caps i.

(** The units of [s] consumed when [rest] is what remains of it. *)
Definition consumed (s rest : list N) : list N :=
  take (length s - length rest) s.

(** The greedy star of an atom: take one more unit if the rest of the pattern then
    matches, else stop here. *)
Fixpoint star {R} (p : N → bool) (s : list N) (k : list N → option R) : option R :=
  match s with
  | u :: rest =>
      if p u
      then match star p rest k with
           | Some r => Some r
           | None => k s
           end
      else k s
  | [] => k s
  end.

(** [matchHere input r s caps k]: match [r] at the suffix [s] of [input],
    then the rest of the pattern, [k]. *)
Fixpoint matchHere (input : list N) (r : Regex) (s : list N) (caps : Captures)
    (k : list N → Captures → option Captures) : option Captures :=
  match r with
  | Bol => if Nat.eqb (length s) (length input) then k s caps else None
  | Eps => k s caps
  | Atom p =>
      match s with
      | u :: rest => if p u then k rest caps else None
      | [] => None
      end
  | Seq r1 r2 =>
      matchHere input r1 s caps (λ s' caps', matchHere input r2 s' caps' k)
  | Alt r1 r2 =>
      match matchHere input r1 s caps k with
      | Some res => Some res
      | None => matchHere input r2 s caps k
      end
  | Star p => star p s (λ s', k s' caps)
  | Group n r1 =>
      matchHere input r1 s caps (λ s' caps', k s' (capture n (consumed s s') caps'))
  end.

(** Try every start, from the left. *)
Fixpoint search (input : list N) (r : Regex) (s : list N) : option Captures :=
  match matchHere input r s noCaptures
          (λ s' caps, Some (capture 0 (consumed s s') caps)) with
  | Some caps => Some caps
  | None =>
      match s with
      | _ :: rest => search input r rest
      | [] => None
      end
  end.

(** [input.match(r)] for a pattern without the [g] flag. *)
Definition regexMatch (r : Regex) (input : list N) : option Captures :=
  search input r input.

(** [YT_PATTERN]: the start of the input, any run of dots, group 1 with
    one of the markers [youtu.be/] (its dot a wildcard), [v/], [u/\w/],
    [embed/], [watch?v=] and [&v=], group 2 with the longest run of units
    other than [#], [&] and [?], then any run of dots. *)
Definition YT_MARKERS : Regex :=
  Alt (Seq (lit "youtu") (Seq (Atom dot) (lit "be/")))
  (Alt (lit "v/")
  (Alt (Seq (lit "u/") (Seq (Atom word) (lit "/")))
  (Alt (lit "embed/")
  (Alt (lit "watch?v=")
       (lit "&v="))))).

Definition YT_PATTERN : Regex :=
  Seq Bol
   (Seq (Star dot)
     (Seq (Group 1 YT_MARKERS)
     (Seq (Group 2 (Star (noneOf "#&?")))
          (Star dot)))).

(** [IMAGE_PATTERN]: one group with [jpg], [png] or [gif], anywhere. *)
Definition IMAGE_PATTERN : Regex :=
  Group 1 (Alt (lit "jpg") (Alt (lit "png") (lit "gif"))).

(** ** The component *)

(** What [relayManager.getOpenGraph] answers, as far as the component
    reads it. *)
Record OpenGraphData := {
  og_title : option (list N);
  og_description : option (list N);
}.

Record EmbeddedResource := {
  url : list N;
  isYouTube : bool;
  isImage : bool;
  isCollapsed : bool;
  embedUrl : option (list N);
  hasOgData : option bool;
  ogData : option OpenGraphData;
  title : option (list N);
}.

(** The fields as the class declares them, with the [url] it is given. *)
Definition newEmbeddedResource (url : list N) : EmbeddedResource :=
  {| url := url; isYouTube := false; isImage := false; isCollapsed := false;
     embedUrl := None; hasOgData := None; ogData := None; title := None |}.

(** A string is truthy when it is there and not empty. *)
Definition truthy (s : option (list N)) : bool :=
  match s with
  | Some (_ :: _) => true
  | _ => false
  end.

(** Group [n] of a match result, [undefined] when there is no match. *)
Definition group (m : option Captures) (n : nat) : option (list N) :=
  match m with
  | Some caps => caps n
  | None => None
  end.

Definition matched (m : option Captures) : bool :=
  match m with
  | Some _ => true
  | None => false
  end.

Definition set_isYouTube (b : bool) (c : EmbeddedResource) : EmbeddedResource :=
  {| url := url c; isYouTube := b; isImage := isImage c;
     isCollapsed := isCollapsed c; embedUrl := embedUrl c;
     hasOgData := hasOgData c; ogData := ogData c; title := title c |}.

Definition set_isImage (b : bool) (c : EmbeddedResource) : EmbeddedResource :=
  {| url := url c; isYouTube := isYouTube c; isImage := b;
     isCollapsed := isCollapsed c; embedUrl := embedUrl c;
     hasOgData := hasOgData c; ogData := ogData c; title := title c |}.

Definition set_embedUrl (u : list N) (c : EmbeddedResource) : EmbeddedResource :=
  {| url := url c; isYouTube := isYouTube c; isImage := isImage c;
     isCollapsed := isCollapsed c; embedUrl := Some u;
     hasOgData := hasOgData c; ogData := ogData c; title := title c |}.

Definition parseUrl (c : EmbeddedResource) : EmbeddedResource :=
  let ytMatches := regexMatch YT_PATTERN (url c) in
  if matched ytMatches && truthy (group ytMatches 2)
  then
    let c := set_isYouTube true c in
    let videoId := default [] (group ytMatches 2) in
    let embedUrl' := codes "https://www.youtube-nocookie.com/embed/" ++ videoId in
    set_embedUrl embedUrl' c
  else if matched (regexMatch IMAGE_PATTERN (url c))
  then set_isImage true c
  else c.

(** [fetchOpenGraph] after its [await]: [og] is what the relay answered. *)
Definition fetchOpenGraph (og : OpenGraphData) (c : EmbeddedResource) : EmbeddedResource :=
  {| url := url c; isYouTube := isYouTube c; isImage := isImage c;
     isCollapsed := isCollapsed c; embedUrl := embedUrl c;
     hasOgData := Some (truthy (og_title og) && truthy (og_description og));
     ogData := Some og; title := og_title og |}.

(** [@or('embedUrl', 'isImage', 'hasOgData')], as a condition. *)
Definition shouldRender (c : EmbeddedResource) : bool :=
  truthy (embedUrl c) || isImage c || default false (hasOgData c).

Definition toggleShow (c : EmbeddedResource) : EmbeddedResource :=
  {| url := url c; isYouTube := isYouTube c; isImage := isImage c;
     isCollapsed := negb (isCollapsed c); embedUrl := embedUrl c;
     hasOgData := hasOgData c; ogData := ogData c; title := title c |}.



(** The units of a YouTube video id: letters, digits, [_] and [-]. *)
Definition idUnit (u : N) : bool := word u || N.eqb u 45.

(** * Sample worlds and predicates *)

(** ** Sample worlds *)

(** A localization that answers every key with the key itself. *)
Definition keys (key : string) : string := key.

Definition relay0 : Relay := {| relay_socket := "wss://relay.example/socket" |}.

(** An identity with the two-byte key [0x0a, 0xb1]. *)
Definition alice : IdentityService :=
  {| identity_exists := true; publicKey := Some [x0a; xb1]%byte |}.

(** An identity that reports itself present while its key is not loaded. *)
Definition keyless : IdentityService :=
  {| identity_exists := true; publicKey := None |}.

Definition nobody : IdentityService :=
  {| identity_exists := false; publicKey := None |}.

(** A new service, and the same service after one [connect()]. *)
Definition fresh : World := init alice relay0.
Definition online : World := exec (connect keys) fresh.

(** A new service whose identity exists but offers no key. *)
Definition unkeyed : World := init keyless relay0.

(** A new service with no identity at all. *)
Definition anonymous : World := init nobody relay0.

(** The connected service after its channel reported an error, and after
    its channel closed. *)
Definition faulted : World :=
  exec (channel_trigger keys 0 "phx_error" JUndefined) online.
Definition hungUp : World :=
  exec (channel_trigger keys 0 "phx_close" JUndefined) online.

(** ** Predicates on worlds *)

(** The socket of the service holds a transport and its channel has been
    joined with outcome ["ok"]. *)
Definition liveAndJoined (w : World) : Prop :=
  ∃ s so c co,
    socket (this w) = Some s ∧ sockets w !! s = Some so ∧ sock_conn so = true ∧
    channel (this w) = Some c ∧ channels w !! c = Some co ∧ chan_state co = joined.

(** The service has made a socket and called [connect()] on it, and has
    made a channel on that socket and called [join()] on it. *)
Definition joinIssued (w : World) : Prop :=
  ∃ s so c co,
    socket (this w) = Some s ∧ sockets w !! s = Some so ∧
    SocketConnect s ∈ effects w ∧
    channel (this w) = Some c ∧ channels w !! c = Some co ∧
    chan_socket co = s ∧ ChannelJoin c ∈ effects w.

(** What holds between two calls or events. *)
Record wired (w : World) : Prop := {
  wired_connected : connected (this w) = true → is_Some (channel (this w));
  wired_socket : ∀ s, socket (this w) = Some s →
    is_Some (sockets w !! s) ∧ SocketConnect s ∈ effects w;
  wired_channel : ∀ c, channel (this w) = Some c →
    ∃ co, channels w !! c = Some co ∧ socket (this w) = Some (chan_socket co) ∧
          ChannelJoin c ∈ effects w;
}.

(** What a registered function may change: it keeps the [socket] and
    [channel] fields, never sets [connected], keeps every object (a channel
    stays on its socket), keeps a settled promise as it is, and only adds
    to the trace. *)
Record stable (w w' : World) : Prop := {
  stable_socket : socket (this w') = socket (this w);
  stable_channel : channel (this w') = channel (this w);
  stable_connected : connected (this w') = true → connected (this w) = true;
  stable_sockets : length (sockets w') = length (sockets w);
  stable_channels : ∀ c co, channels w !! c = Some co →
    ∃ co', channels w' !! c = Some co' ∧ chan_socket co' = chan_socket co;
  stable_promises : ∀ p st, promises w !! p = Some st → st ≠ Pending →
    promises w' !! p = Some st;
  stable_effects : ∀ e, e ∈ effects w → e ∈ effects w';
}.

(** The hooks the service hangs on a join push and on the push of a
    [send] whose promise is [promise]. *)
Definition joinHooks : list (string * Callback) :=
  [("ok", CbHandleConnected); ("error", CbHandleError); ("timeout", CbJoinTimeout)].

Definition chatHooks (promise : nat) : list (string * Callback) :=
  [("ok", CbResolve promise); ("error", CbReject promise);
   ("timeout", CbRejectTimeout promise)].

Definition channelBindings : list (string * Callback) :=
  [("phx_error", CbOnChannelError); ("phx_close", CbOnChannelClose);
   ("chat", CbHandleMessage)].

(** Every object carries the functions the service registers on it when
    it makes the object, once each, and no others. *)
Record hooked (w : World) : Prop := {
  hooked_sockets : ∀ s so, sockets w !! s = Some so →
    sock_onError so = [CbOnSocketError] ∧ sock_onClose so = [CbOnSocketClose];
  hooked_channels : ∀ c co, channels w !! c = Some co →
    chan_bindings co = channelBindings;
  hooked_pushes : ∀ p po, pushes w !! p = Some po →
    (push_event po = "phx_join" ∧ push_recHooks po = joinHooks) ∨
    (push_event po = "chat" ∧
     ∃ promise, promise < length (promises w) ∧ push_recHooks po = chatHooks promise);
}.

(** The connected service after its socket closed, and after a second
    [connect()] that followed. *)
Definition dropped : World := exec (socket_close keys 0) online.
Definition reconnected : World := exec (connect keys) dropped.

(** The connected service after [send("peer1", "hello")]. *)
Definition sent : World := exec (send keys "peer1" "hello") online.

(** ** Tactics *)

Ltac unfold_m :=
  unfold exec, eval, send, connect, subscribeToChannel, canConnect, userChannelId,
    onSocketError, onSocketClose, onChannelError, onChannelClose, handleError,
    handleConnected, handleMessage, socket_connect, socket_disconnect,
    socket_onError, socket_onClose, socket_channel, channel_onError,
    channel_onClose, channel_on, channel_join, channel_push, push_receive,
    new_Socket, new_Push, new_Promise, promise_resolve, promise_reject,
    set_socket, set_channel, set_connected, toast_info, toast_error,
    toast_success, console_error, console_log, console_info,
    processor_receive, dispatcher_pingAll, emit, gets, modify,
    mbind, M_bind, mret, M_ret, compose in *.

(** Evaluate the record updates of a world that is given by its fields,
    innermost first. *)
Ltac world_nf :=
  cbv beta iota zeta delta
    [with_this with_sockets with_channels with_pushes with_promises with_effects
     this identity relayManager sockets channels pushes promises effects
     socket channel connected identity_exists publicKey relay_socket fst snd].

Ltac destruct_world w :=
  destruct w as [[? ? ?] [? ?] [?] ? ? ? ? ?].

(** Write the code units of a literal out. *)
Ltac eval_codes :=
  repeat match goal with
         | |- context [codes ?str] =>
             let l := eval vm_compute in (codes str) in
             change (codes str) with l
         end.

(** * Properties of RelayConnection *)

(** ** Lists as object stores *)

Lemma alter_last {A} (f : A → A) (l : list A) (x : A) :
  alter f (length l) (l ++ [x]) = l ++ [f x].
Proof.
  induction l as [|a l IH]; [done|]. cbn. f_equal. exact IH.
Qed.

Lemma lookup_last {A} (l : list A) (x : A) : (l ++ [x]) !! length l = Some x.
Proof. by apply list_lookup_middle. Qed.

Ltac store_nf := repeat (rewrite !alter_last; cbn -[alter]).

Section Properties.

Variable t : string → string.

(** ** What each method computes *)

Lemma userChannelId_spec (w : World) :
  userChannelId w =
    (match publicKey (identity w) with Some key => toHex key | None => "" end, w).
Proof. unfold_m. by destruct (publicKey (identity w)). Qed.

Lemma subscribeToChannel_socket (channelName : string) (w : World) (s : nat) :
  socket (this w) = Some s →
  subscribeToChannel t channelName w =
    (tt,
     {| this := {| socket := Some s; channel := Some (length (channels w));
                   connected := connected (this w) |};
        identity := identity w; relayManager := relayManager w;
        sockets := sockets w;
        channels := channels w ++
          [{| chan_topic := channelName; chan_socket := s; chan_state := joining;
              chan_bindings := [("phx_error", CbOnChannelError);
                                ("phx_close", CbOnChannelClose);
                                ("chat", CbHandleMessage)];
              chan_joinPush := Some (length (pushes w)) |}];
        pushes := pushes w ++
          [{| push_channel := length (channels w); push_event := "phx_join";
              push_payload := JObj [];
              push_recHooks := [("ok", CbHandleConnected);
                                ("error", CbHandleError);
                                ("timeout", CbJoinTimeout)];
              push_receivedResp := None |}];
        promises := promises w;
        effects := effects w ++ [ChannelJoin (length (channels w))] |}).
Proof.
  destruct_world w. cbn. intros ->. unfold_m. world_nf. by store_nf.
Qed.

Lemma subscribeToChannel_no_socket (channelName : string) (w : World) :
  socket (this w) = None →
  subscribeToChannel t channelName w =
    (tt, with_effects
           (λ es, es ++ [ToastError (t "connection.errors.subscribe.notConnected")]) w).
Proof. destruct_world w. cbn. by intros ->. Qed.

Lemma connect_guard (w : World) :
  identity_exists (identity w) = false ∨ connected (this w) = true →
  connect t w = (tt, w).
Proof.
  destruct_world w. cbn. unfold_m. cbn.
  intros [-> | ->]; [done|]. by rewrite orb_true_r.
Qed.

Lemma connect_proceeds (w : World) :
  identity_exists (identity w) = true →
  connected (this w) = false →
  connect t w =
    (tt,
     let key := eval userChannelId w in
     {| this := {| socket := Some (length (sockets w));
                   channel := Some (length (channels w));
                   connected := true |};
        identity := identity w; relayManager := relayManager w;
        sockets := sockets w ++
          [{| sock_endPoint := relay_socket (relayManager w); sock_uid := key;
              sock_onError := [CbOnSocketError]; sock_onClose := [CbOnSocketClose];
              sock_conn := true |}];
        channels := channels w ++
          [{| chan_topic := "user:" +:+ key; chan_socket := length (sockets w);
              chan_state := joining;
              chan_bindings := [("phx_error", CbOnChannelError);
                                ("phx_close", CbOnChannelClose);
                                ("chat", CbHandleMessage)];
              chan_joinPush := Some (length (pushes w)) |}];
        pushes := pushes w ++
          [{| push_channel := length (channels w); push_event := "phx_join";
              push_payload := JObj [];
              push_recHooks := [("ok", CbHandleConnected);
                                ("error", CbHandleError);
                                ("timeout", CbJoinTimeout)];
              push_receivedResp := None |}];
        promises := promises w;
        effects := effects w ++
          [ToastInfo (t "connection.connecting"); SocketConnect (length (sockets w));
           ChannelJoin (length (channels w)); DispatcherPingAll] |}).
Proof.
  destruct w as [[so ch co] [ex [key|]] [url] ss cs ps prs es];
    cbn; intros -> ->; unfold_m; world_nf; cbn -[alter String.append]; world_nf;
    store_nf; by rewrite <- !app_assoc.
Qed.

Lemma send_no_channel (to data : string) (w : World) :
  channel (this w) = None →
  send t to data w =
    (RetUndefined,
     with_effects
       (λ es, es ++ [ConsoleError (JStr (t "connection.errors.send.notConnected"))]) w).
Proof. destruct_world w. cbn. by intros ->. Qed.

Lemma send_channel (to data : string) (w : World) (c : nat) :
  channel (this w) = Some c →
  send t to data w =
    (RetPromise (length (promises w)),
     {| this := this w; identity := identity w; relayManager := relayManager w;
        sockets := sockets w; channels := channels w;
        pushes := pushes w ++
          [{| push_channel := c; push_event := "chat";
              push_payload := JObj [("to", JStr to); ("message", JStr data)];
              push_recHooks := [("ok", CbResolve (length (promises w)));
                                ("error", CbReject (length (promises w)));
                                ("timeout", CbRejectTimeout (length (promises w)))];
              push_receivedResp := None |}];
        promises := promises w ++ [Pending];
        effects := effects w ++
          [ChannelPush c "chat" (JObj [("to", JStr to); ("message", JStr data)])] |}).
Proof.
  destruct_world w. cbn. intros ->. unfold_m. world_nf. by store_nf.
Qed.

(** ** Registered functions are stable *)

Lemma stable_refl (w : World) : stable w w.
Proof. constructor; eauto. Qed.

Lemma stable_trans (w1 w2 w3 : World) : stable w1 w2 → stable w2 w3 → stable w1 w3.
Proof.
  intros [A1 A2 A3 A4 A5 A6 A7] [B1 B2 B3 B4 B5 B6 B7]. constructor.
  - congruence.
  - congruence.
  - auto.
  - congruence.
  - intros c co H. destruct (A5 c co H) as (co' & H' & E').
    destruct (B5 c co' H') as (co'' & H'' & E''). exists co''. split; [done|congruence].
  - auto.
  - auto.
Qed.

Lemma stable_effects_app (w : World) (es : list Effect) :
  stable w (with_effects (λ l, l ++ es) w).
Proof.
  constructor; cbn; eauto. intros e He. apply elem_of_app. by left.
Qed.

Lemma stable_conn (w : World) (b : bool) (s : nat) :
  stable w (with_sockets (alter (set_conn b) s) w).
Proof. constructor; cbn; eauto. apply length_alter. Qed.

Lemma stable_disconnected (w : World) :
  stable w (with_this (λ r, {| socket := socket r; channel := channel r;
                               connected := false |}) w).
Proof. constructor; cbn; eauto. done. Qed.

Lemma settle_settled (st new old : PromiseState) :
  old = st → st ≠ Pending → settle new old = st.
Proof. intros -> H. by destruct st. Qed.

Lemma stable_settle (w : World) (p : nat) (new : PromiseState) :
  stable w (with_promises (alter (settle new) p) w).
Proof.
  constructor; cbn; eauto. intros q st Hq Hst.
  rewrite list_lookup_alter. case_decide as E; [|done].
  subst q. rewrite Hq. cbn. f_equal. by apply settle_settled.
Qed.

Lemma stable_state (w : World) (f : Channel → Channel) (c : nat) :
  (∀ o, chan_socket (f o) = chan_socket o) →
  stable w (with_channels (alter f c) w).
Proof.
  intros Hf. constructor; cbn; eauto. intros c' co Hc.
  rewrite list_lookup_alter. case_decide as E.
  - subst c'. rewrite Hc. cbn. eauto.
  - eauto.
Qed.

Lemma stable_pushes (w : World) (f : list Push → list Push) :
  stable w (with_pushes f w).
Proof. constructor; cbn; eauto. Qed.

Lemma call_stable (cb : Callback) (arg : JsVal) (w : World) :
  stable w (exec (call t cb arg) w).
Proof.
  destruct cb; cbn [call]; unfold_m; cbn [snd].
  - apply stable_effects_app.
  - eapply stable_trans; [apply stable_effects_app|]. apply stable_disconnected.
  - eapply stable_trans; [apply stable_effects_app|].
    cbn. destruct (socket (this w)) as [s|]; cbn; [|apply stable_refl].
    eapply stable_trans; [apply stable_conn|]. apply stable_effects_app.
  - eapply stable_trans; [apply stable_effects_app|].
    cbn. destruct (socket (this w)) as [s|]; cbn; [|apply stable_refl].
    eapply stable_trans; [apply stable_conn|]. apply stable_effects_app.
  - apply stable_effects_app.
  - apply stable_effects_app.
  - apply stable_effects_app.
  - apply stable_effects_app.
  - apply stable_settle.
  - apply stable_settle.
  - apply stable_settle.
Qed.

Lemma callAll_stable (cbs : list Callback) (arg : JsVal) (w : World) :
  stable w (exec (callAll t cbs arg) w).
Proof.
  revert w. induction cbs as [|cb cbs IH]; intros w; [apply stable_refl|].
  unfold exec. cbn [callAll]. unfold mbind, M_bind.
  pose proof (call_stable cb arg w) as H. unfold exec in H.
  destruct (call t cb arg w) as [[] w1]. cbn in H.
  eapply stable_trans; [exact H|]. apply IH.
Qed.

(** ** Events are stable *)

Lemma socket_error_stable (s : nat) (w : World) :
  stable w (exec (socket_error t s) w).
Proof.
  unfold exec, socket_error, gets, mbind, M_bind.
  destruct (sockets w !! s); [apply callAll_stable|apply stable_refl].
Qed.

Lemma socket_close_stable (s : nat) (w : World) :
  stable w (exec (socket_close t s) w).
Proof.
  unfold exec, socket_close, gets, mbind, M_bind.
  destruct (sockets w !! s); [apply callAll_stable|apply stable_refl].
Qed.

Lemma channel_trigger_stable (c : nat) (event : string) (payload : JsVal) (w : World) :
  stable w (exec (channel_trigger t c event payload) w).
Proof.
  unfold exec, channel_trigger, gets, modify, mbind, M_bind, mret, M_ret.
  destruct (channels w !! c) as [o|]; [|apply stable_refl].
  destruct (String.eqb event "phx_error"); [|destruct (String.eqb event "phx_close")].
  - eapply stable_trans; [|apply callAll_stable]. by apply stable_state.
  - eapply stable_trans; [|apply callAll_stable]. by apply stable_state.
  - apply callAll_stable.
Qed.

Lemma join_outcome_socket (p : nat) (status : string) (o : Channel) :
  chan_socket (join_outcome p status o) = chan_socket o.
Proof. unfold join_outcome. by case_bool_decide. Qed.

Lemma push_reply_stable (p : nat) (status : string) (response : JsVal) (w : World) :
  stable w (exec (push_reply t p status response) w).
Proof.
  unfold exec, push_reply, gets, modify, mbind, M_bind.
  destruct (pushes w !! p) as [o|]; [|apply stable_refl].
  eapply stable_trans; [|apply callAll_stable].
  eapply stable_trans; [apply stable_pushes|].
  apply stable_state, join_outcome_socket.
Qed.

(** ** The wiring invariant *)

Lemma stable_wired (w w' : World) : stable w w' → wired w → wired w'.
Proof.
  intros [S1 S2 S3 S4 S5 S6 S7] [W1 W2 W3]. constructor.
  - intros H. rewrite S2. auto.
  - intros s Hs. rewrite S1 in Hs. destruct (W2 s Hs) as [Hso He]. split; [|auto].
    apply lookup_lt_is_Some. rewrite S4. by apply lookup_lt_is_Some.
  - intros c Hc. rewrite S2 in Hc. destruct (W3 c Hc) as (co & Hco & Hs & He).
    destruct (S5 c co Hco) as (co' & Hco' & E). exists co'.
    split; [done|]. split; [congruence|auto].
Qed.

Lemma init_wired (i : IdentityService) (r : Relay) : wired (init i r).
Proof. constructor; cbn; [done|done|done]. Qed.

Lemma send_stable (to data : string) (w : World) :
  stable w (exec (send t to data) w).
Proof.
  unfold exec. destruct (channel (this w)) as [c|] eqn:Hc.
  - rewrite (send_channel to data w c Hc). cbn [snd].
    constructor; cbn; eauto.
    + intros p st Hp _. by apply lookup_app_l_Some.
    + intros e He. apply elem_of_app. by left.
  - rewrite (send_no_channel to data w Hc). apply stable_effects_app.
Qed.

Lemma subscribeToChannel_wired (channelName : string) (w : World) :
  wired w → wired (exec (subscribeToChannel t channelName) w).
Proof.
  intros Hw. unfold exec. destruct (socket (this w)) as [s|] eqn:Hs.
  - rewrite (subscribeToChannel_socket channelName w s Hs). cbn [snd].
    destruct Hw as [W1 W2 W3]. destruct (W2 s Hs) as [Hso He].
    constructor; cbn.
    + by eauto.
    + intros s' [= <-]. split; [done|]. apply elem_of_app. by left.
    + intros c [= <-]. eexists. split; [apply lookup_last|]. cbn.
      split; [done|]. apply elem_of_app. right. by apply list_elem_of_singleton.
  - rewrite (subscribeToChannel_no_socket channelName w Hs). cbn [snd].
    eapply stable_wired; [apply stable_effects_app|done].
Qed.

Lemma connect_wired (w : World) : wired w → wired (exec (connect t) w).
Proof.
  intros Hw. unfold exec.
  destruct (identity_exists (identity w)) eqn:Hex;
    [destruct (connected (this w)) eqn:Hco|].
  - rewrite connect_guard; [done|by right].
  - rewrite (connect_proceeds w Hex Hco). cbn [snd]. constructor; cbn.
    + by eauto.
    + intros s [= <-]. split; [rewrite lookup_last; by eauto|].
      apply elem_of_app. right. repeat constructor.
    + intros c [= <-]. eexists. split; [apply lookup_last|]. cbn.
      split; [done|]. apply elem_of_app. right. repeat constructor.
  - rewrite connect_guard; [done|by left].
Qed.

Lemma step_wired (a : Action) (w w' : World) :
  wired w → step t a w = Some w' → wired w'.
Proof.
  intros Hw. destruct a; cbn [step].
  - intros [= <-]. by apply connect_wired.
  - intros [= <-]. eapply stable_wired; [apply send_stable|done].
  - intros [= <-]. by apply subscribeToChannel_wired.
  - destruct (sockets w !! s); [|done]. intros [= <-].
    eapply stable_wired; [apply socket_error_stable|done].
  - destruct (sockets w !! s); [|done]. intros [= <-].
    eapply stable_wired; [apply socket_close_stable|done].
  - destruct (channels w !! c); [|done]. intros [= <-].
    eapply stable_wired; [apply channel_trigger_stable|done].
  - destruct (pushes w !! p) as [o|]; [|done].
    destruct (push_receivedResp o); [done|]. intros [= <-].
    eapply stable_wired; [apply push_reply_stable|done].
  - intros [= <-]. destruct Hw. by constructor.
  - intros [= <-]. destruct Hw. by constructor.
Qed.

Lemma reachable_wired (w : World) : reachable t w → wired w.
Proof.
  induction 1 as [i r|a w w' _ IH Hstep]; [apply init_wired|].
  by eapply step_wired.
Qed.

Lemma step_settled (a : Action) (w w' : World) (p : nat) (st : PromiseState) :
  step t a w = Some w' → promises w !! p = Some st → st ≠ Pending →
  promises w' !! p = Some st.
Proof.
  intros Hstep Hp Hst. destruct a; cbn [step] in Hstep.
  - injection Hstep as <-. unfold exec.
    destruct (identity_exists (identity w)) eqn:Hex;
      [destruct (connected (this w)) eqn:Hco|].
    + rewrite connect_guard; [done|by right].
    + by rewrite (connect_proceeds w Hex Hco).
    + rewrite connect_guard; [done|by left].
  - injection Hstep as <-. by apply (stable_promises _ _ (send_stable to data w)).
  - injection Hstep as <-. unfold exec.
    destruct (socket (this w)) as [s|] eqn:Hs.
    + by rewrite (subscribeToChannel_socket channelName w s Hs).
    + by rewrite (subscribeToChannel_no_socket channelName w Hs).
  - destruct (sockets w !! s); [|done]. injection Hstep as <-.
    by apply (stable_promises _ _ (socket_error_stable s w)).
  - destruct (sockets w !! s); [|done]. injection Hstep as <-.
    by apply (stable_promises _ _ (socket_close_stable s w)).
  - destruct (channels w !! c); [|done]. injection Hstep as <-.
    by apply (stable_promises _ _ (channel_trigger_stable c event payload w)).
  - destruct (pushes w !! p0) as [o|]; [|done].
    destruct (push_receivedResp o); [done|]. injection Hstep as <-.
    by apply (stable_promises _ _ (push_reply_stable p0 status response w)).
  - by injection Hstep as <-.
  - by injection Hstep as <-.
Qed.

Lemma run_settled (actions : list Action) (w w' : World) (p : nat)
    (st : PromiseState) :
  run t actions w = Some w' → promises w !! p = Some st → st ≠ Pending →
  promises w' !! p = Some st.
Proof.
  revert w. induction actions as [|a actions IH]; intros w; cbn [run].
  - by intros [= <-].
  - destruct (step t a w) as [w1|] eqn:Hstep; [|done].
    intros Hrun Hp Hst. apply (IH w1 Hrun); [|done]. by eapply step_settled.
Qed.

(** The reply to the push of a [send] reaches the promise of that [send]. *)
Lemma push_reply_chat (w : World) (push promise c : nat) (payload : JsVal)
    (status : string) (response : JsVal) :
  pushes w !! push =
    Some {| push_channel := c; push_event := "chat"; push_payload := payload;
            push_recHooks := [("ok", CbResolve promise); ("error", CbReject promise);
                              ("timeout", CbRejectTimeout promise)];
            push_receivedResp := None |} →
  promises (exec (push_reply t push status response) w) =
    if String.eqb "ok" status
    then alter (settle (Fulfilled response)) promise (promises w)
    else if String.eqb "error" status
    then alter (settle (Rejected response)) promise (promises w)
    else if String.eqb "timeout" status
    then alter (settle (Rejected
           (JObj [("reason", JStr (t "models.message.errors.timeout"))])))
           promise (promises w)
    else promises w.
Proof.
  intros Hpush. unfold exec, push_reply, gets, modify, mbind, M_bind.
  rewrite Hpush. cbn -[String.eqb alter]. unfold bound.
  cbn -[String.eqb alter]. rewrite !decide_bool_decide.
  destruct (String.eqb "ok" status) eqn:E1;
    [apply String.eqb_eq in E1 as <-; by cbn -[alter]|].
  destruct (String.eqb "error" status) eqn:E2;
    [apply String.eqb_eq in E2 as <-; by cbn -[alter]|].
  destruct (String.eqb "timeout" status) eqn:E3;
    [apply String.eqb_eq in E3 as <-; by cbn -[alter]|].
  by cbn.
Qed.

(** ** The connection invariant *)

(** C1, as amended.  In every reachable state, [connected = true] implies
    that the [socket] field holds a socket on which [connect()] has been
    called and the [channel] field holds a channel of that socket on which
    [join()] has been called.  Neither the outcome of the join nor the
    transport of the socket is part of it. *)
Theorem connected_implies_join_issued (w : World) :
  reachable t w → connected (this w) = true → joinIssued w.
Proof.
  intros Hr Hco. destruct (reachable_wired w Hr) as [W1 W2 W3].
  destruct (W1 Hco) as [c Hc].
  destruct (W3 c Hc) as (co & Hch & Hs & Hj).
  destruct (W2 _ Hs) as [[so Hso] He].
  exists (chan_socket co), so, c, co. by repeat split.
Qed.

(** ** [send] *)

(** C2, as amended.  A [send(to, data)] made while the [channel] field is
    unset logs the localized not-connected message with [console.error]
    and returns [undefined]: nothing reaches the network, no promise is
    made and nothing else in the world changes. *)
Theorem send_without_channel (to data : string) (w : World) :
  channel (this w) = None →
  eval (send t to data) w = RetUndefined ∧
  exec (send t to data) w =
    with_effects
      (λ es, es ++ [ConsoleError (JStr (t "connection.errors.send.notConnected"))]) w ∧
  filter isNetwork (effects (exec (send t to data) w)) = filter isNetwork (effects w) ∧
  promises (exec (send t to data) w) = promises w ∧
  pushes (exec (send t to data) w) = pushes w.
Proof.
  intros Hc. unfold eval, exec. rewrite (send_no_channel to data w Hc). cbn.
  repeat split. rewrite filter_app. cbn. by rewrite app_nil_r.
Qed.

(** C8.  With the [channel] field set, [send(to, data)] pushes the event
    ["chat"] with payload [{to, message: data}] on that channel and
    returns a new, pending promise.  A reply ["ok"] fulfils it with the
    reply, a reply ["error"] rejects it with the reply, and the timeout
    rejects it with [{reason: t(models.message.errors.timeout)}]; a reply
    with any other status leaves it pending.  Once the promise is settled
    no later call or event changes it. *)
Theorem send_pushes_and_settles (to data : string) (w : World) (c : nat) :
  channel (this w) = Some c →
  let w' := exec (send t to data) w in
  let promise := length (promises w) in
  let push := length (pushes w) in
  eval (send t to data) w = RetPromise promise ∧
  effects w' = effects w ++
    [ChannelPush c "chat" (JObj [("to", JStr to); ("message", JStr data)])] ∧
  promises w' !! promise = Some Pending ∧
  (∀ reply,
     promises (exec (push_reply t push "ok" reply) w') !! promise
       = Some (Fulfilled reply)) ∧
  (∀ reply,
     promises (exec (push_reply t push "error" reply) w') !! promise
       = Some (Rejected reply)) ∧
  (∀ reply,
     promises (exec (push_reply t push "timeout" reply) w') !! promise
       = Some (Rejected (JObj [("reason", JStr (t "models.message.errors.timeout"))]))) ∧
  (∀ status reply,
     String.eqb "ok" status = false → String.eqb "error" status = false →
     String.eqb "timeout" status = false →
     promises (exec (push_reply t push status reply) w') !! promise = Some Pending) ∧
  (∀ status reply actions w2 st,
     promises (exec (push_reply t push status reply) w') !! promise = Some st →
     st ≠ Pending →
     run t actions (exec (push_reply t push status reply) w') = Some w2 →
     promises w2 !! promise = Some st).
Proof.
  intros Hc w' promise push.
  assert (Hw' : pushes w' !! push =
    Some {| push_channel := c; push_event := "chat";
            push_payload := JObj [("to", JStr to); ("message", JStr data)];
            push_recHooks := [("ok", CbResolve promise); ("error", CbReject promise);
                              ("timeout", CbRejectTimeout promise)];
            push_receivedResp := None |}).
  { subst w'. unfold exec. rewrite (send_channel to data w c Hc). apply lookup_last. }
  assert (Hp : promises w' !! promise = Some Pending).
  { subst w'. unfold exec. rewrite (send_channel to data w c Hc). apply lookup_last. }
  split; [unfold eval; by rewrite (send_channel to data w c Hc)|].
  split; [subst w'; unfold exec; by rewrite (send_channel to data w c Hc)|].
  split; [done|].
  split; [|split; [|split; [|split]]].
  - intros reply. rewrite (push_reply_chat w' push promise c _ "ok" reply Hw').
    cbn -[alter]. by rewrite list_lookup_alter_eq, Hp.
  - intros reply. rewrite (push_reply_chat w' push promise c _ "error" reply Hw').
    cbn -[alter]. by rewrite list_lookup_alter_eq, Hp.
  - intros reply. rewrite (push_reply_chat w' push promise c _ "timeout" reply Hw').
    cbn -[alter]. by rewrite list_lookup_alter_eq, Hp.
  - intros status reply E1 E2 E3.
    rewrite (push_reply_chat w' push promise c _ status reply Hw').
    by rewrite E1, E2, E3.
  - intros status reply actions w2 st Hst Hne Hrun. by eapply run_settled.
Qed.

(** ** [connect] *)

(** C3, as amended.  If the identity collaborator reports that no
    identity exists ([exists()] is false), [connect()] creates no socket,
    issues no channel subscription, emits nothing and leaves [connected] as
    it was, so false stays false. *)
Theorem connect_without_identity (w : World) :
  identity_exists (identity w) = false →
  let w' := exec (connect t) w in
  sockets w' = sockets w ∧ channels w' = channels w ∧ pushes w' = pushes w ∧
  effects w' = effects w ∧ connected (this w') = connected (this w) ∧
  (connected (this w) = false → connected (this w') = false).
Proof.
  intros Hex w'. subst w'. unfold exec.
  rewrite connect_guard by (by left). cbn. by repeat split.
Qed.

(** C4.  When [connect()] passes its guard it ends with
    [connected = true] while the join it has issued is still without an
    outcome: the channel is joining and its join push has no response.
    The calls it makes are, in this order, the connecting toast, the
    connect of the new socket, the join of the new channel and one
    [pingAll()]. *)
Theorem connect_sets_connected_at_join_issue (w : World) :
  identity_exists (identity w) = true →
  connected (this w) = false →
  let w' := exec (connect t) w in
  let s := length (sockets w) in
  let c := length (channels w) in
  let p := length (pushes w) in
  connected (this w') = true ∧
  socket (this w') = Some s ∧
  channel (this w') = Some c ∧
  (∃ co po, channels w' !! c = Some co ∧ chan_state co = joining ∧
            chan_joinPush co = Some p ∧
            pushes w' !! p = Some po ∧ push_receivedResp po = None) ∧
  effects w' = effects w ++
    [ToastInfo (t "connection.connecting"); SocketConnect s; ChannelJoin c;
     DispatcherPingAll].
Proof.
  intros Hex Hco w' s c p. subst w'. unfold exec.
  rewrite (connect_proceeds w Hex Hco). cbn -[String.append].
  split; [done|]. split; [done|]. split; [done|]. split; [|done].
  do 2 eexists. split; [apply lookup_last|]. cbn -[String.append].
  split; [done|]. split; [done|]. split; [apply lookup_last|done].
Qed.

(** C7.  [connect()] does nothing when [canConnect()] is false or
    [connected] is already true: the world it leaves is the world it found,
    with no new socket, no changed field and no notification.  So a second
    [connect()] right after a first changes nothing. *)
Theorem connect_idempotent (w : World) :
  (eval canConnect w = false ∨ connected (this w) = true →
   exec (connect t) w = w) ∧
  exec (connect t) (exec (connect t) w) = exec (connect t) w.
Proof.
  assert (H : eval canConnect w = false ∨ connected (this w) = true →
              exec (connect t) w = w).
  { intros Hg. unfold exec. by rewrite connect_guard. }
  split; [exact H|].
  destruct (identity_exists (identity w)) eqn:Hex;
    [destruct (connected (this w)) eqn:Hco|].
  - rewrite H by (by right). apply H. by right.
  - unfold exec at 2 3. rewrite (connect_proceeds w Hex Hco). cbn [snd].
    unfold exec. rewrite connect_guard; [done|by right].
  - rewrite H by (by left). apply H. by left.
Qed.

(** C9.  [userChannelId] reads the public key and changes nothing, so
    the same key gives the same identifier on every call; for the key
    bytes [0x0a, 0xb1] it gives ["0ab1"] and [connect()] subscribes to the
    channel ["user:0ab1"]. *)
Theorem userChannelId_deterministic :
  (∀ w, exec userChannelId w = w) ∧
  (∀ w1 w2, publicKey (identity w1) = publicKey (identity w2) →
            eval userChannelId w1 = eval userChannelId w2) ∧
  (∀ w, publicKey (identity w) = Some [x0a; xb1]%byte →
        eval userChannelId w = "0ab1" ∧
        (identity_exists (identity w) = true → connected (this w) = false →
         ∃ c co, channel (this (exec (connect t) w)) = Some c ∧
                 channels (exec (connect t) w) !! c = Some co ∧
                 chan_topic co = "user:0ab1")).
Proof.
  split; [|split].
  - intros w. unfold exec. by rewrite userChannelId_spec.
  - intros w1 w2 Hk. unfold eval. rewrite !userChannelId_spec. cbn. by rewrite Hk.
  - intros w Hk.
    assert (Hid : eval userChannelId w = "0ab1").
    { unfold eval. rewrite userChannelId_spec. cbn. by rewrite Hk. }
    split; [exact Hid|]. intros Hex Hco. unfold exec.
    rewrite (connect_proceeds w Hex Hco). cbn -[String.append].
    do 2 eexists. split; [done|]. split; [apply lookup_last|].
    cbn -[String.append]. by rewrite Hid.
Qed.

(** ** [subscribeToChannel] *)

(** C10.  The service has one [channel] field.  A
    [subscribeToChannel(channelName)] that finds the [socket] field set
    stores a newly made channel in it, whatever it held before.  Every
    channel made earlier is left as it was and the only call made is the
    join of the new channel. *)
Theorem subscribeToChannel_overwrites_channel
    (channelName : string) (w : World) (s : nat) :
  socket (this w) = Some s →
  let w' := exec (subscribeToChannel t channelName) w in
  let c := length (channels w) in
  channel (this w') = Some c ∧
  channels w !! c = None ∧
  (∃ co, channels w' !! c = Some co ∧ chan_topic co = channelName ∧
         chan_socket co = s ∧ chan_state co = joining) ∧
  (∀ old co, channels w !! old = Some co → channels w' !! old = Some co) ∧
  effects w' = effects w ++ [ChannelJoin c] ∧
  sockets w' = sockets w.
Proof.
  intros Hs w' c. subst w'. unfold exec.
  rewrite (subscribeToChannel_socket channelName w s Hs). cbn.
  split; [done|]. split; [by apply lookup_ge_None_2|].
  split; [eexists; split; [apply lookup_last|done]|].
  split; [|done]. intros old co Hold. by apply lookup_app_l_Some.
Qed.

(** ** Channel faults *)

(** C5, as amended.  The handlers of a channel error and of a channel
    close leave [connected] as it was, and disconnect the socket held in
    the [socket] field when there is one.  [connected] turns false when the
    close of the socket is delivered afterwards. *)
Theorem channel_fault_disconnects_socket (w : World) :
  (connected (this (exec onChannelError w)) = connected (this w) ∧
   (∀ s, socket (this w) = Some s →
      sockets (exec onChannelError w) = alter (set_conn false) s (sockets w) ∧
      effects (exec onChannelError w) =
        effects w ++ [ConsoleLog (JStr "channel errored"); SocketDisconnect s]) ∧
   connected (this (exec (onSocketClose t) (exec onChannelError w))) = false) ∧
  (connected (this (exec onChannelClose w)) = connected (this w) ∧
   (∀ s, socket (this w) = Some s →
      sockets (exec onChannelClose w) = alter (set_conn false) s (sockets w) ∧
      effects (exec onChannelClose w) =
        effects w ++ [ConsoleLog (JStr "channel closed"); SocketDisconnect s]) ∧
   connected (this (exec (onSocketClose t) (exec onChannelClose w))) = false).
Proof.
  unfold_m. cbn -[alter].
  destruct (socket (this w)) as [s0|]; cbn -[alter].
  - split.
    + split; [done|]. split; [|done].
      intros s [= <-]. split; [done|]. by rewrite <- app_assoc.
    + split; [done|]. split; [|done].
      intros s [= <-]. split; [done|]. by rewrite <- app_assoc.
  - by split.
Qed.

(** C6, as amended.  A close event on a channel leaves the [channel]
    field as it was.  A [send()] that follows still pushes ["chat"] on
    the stored channel and returns a new promise; it does not fail as not
    connected. *)
Theorem channel_close_keeps_channel
    (c ch : nat) (payload : JsVal) (to data : string) (w : World) :
  channel (this w) = Some ch →
  let w' := exec (channel_trigger t c "phx_close" payload) w in
  channel (this w') = Some ch ∧
  eval (send t to data) w' = RetPromise (length (promises w')) ∧
  effects (exec (send t to data) w') = effects w' ++
    [ChannelPush ch "chat" (JObj [("to", JStr to); ("message", JStr data)])].
Proof.
  intros Hch w'.
  assert (Hch' : channel (this w') = Some ch).
  { subst w'. rewrite <- Hch. apply stable_channel, channel_trigger_stable. }
  split; [done|]. unfold eval, exec at 1.
  by rewrite (send_channel to data w' ch Hch').
Qed.

(** ** The registered functions stay as they are *)

Lemma lookup_alter_inv {A} (f : A → A) (l : list A) (i j : nat) (y : A) :
  alter f i l !! j = Some y → ∃ x, l !! j = Some x ∧ (y = x ∨ y = f x).
Proof.
  rewrite list_lookup_alter. case_decide as E.
  - subst j. destruct (l !! i) as [x|]; cbn; [|done]. intros [= <-]. exists x. by auto.
  - intros H. exists y. by auto.
Qed.

Lemma hooked_effects (f : list Effect → list Effect) (w : World) :
  hooked w → hooked (with_effects f w).
Proof. intros [H1 H2 H3]. by constructor. Qed.

Lemma hooked_this (f : RelayConnection → RelayConnection) (w : World) :
  hooked w → hooked (with_this f w).
Proof. intros [H1 H2 H3]. by constructor. Qed.

Lemma hooked_conn (b : bool) (s : nat) (w : World) :
  hooked w → hooked (with_sockets (alter (set_conn b) s) w).
Proof.
  intros [H1 H2 H3]. constructor; [|done|done]. cbn. intros s' so Hs.
  destruct (lookup_alter_inv _ _ _ _ _ Hs) as (x & Hx & [-> | ->]); cbn; eauto.
Qed.

Lemma hooked_settle (f : PromiseState → PromiseState) (p : nat) (w : World) :
  hooked w → hooked (with_promises (alter f p) w).
Proof.
  intros [H1 H2 H3]. constructor; [done|done|]. cbn. intros q po Hq.
  rewrite length_alter. eauto.
Qed.

Lemma hooked_state (f : Channel → Channel) (c : nat) (w : World) :
  (∀ o, chan_bindings (f o) = chan_bindings o) →
  hooked w → hooked (with_channels (alter f c) w).
Proof.
  intros Hf [H1 H2 H3]. constructor; [done| |done]. cbn. intros c' co Hc.
  destruct (lookup_alter_inv _ _ _ _ _ Hc) as (x & Hx & [-> | ->]);
    [|rewrite Hf]; eauto.
Qed.

Lemma hooked_response (f : Push → Push) (p : nat) (w : World) :
  (∀ o, push_event (f o) = push_event o ∧ push_recHooks (f o) = push_recHooks o) →
  hooked w → hooked (with_pushes (alter f p) w).
Proof.
  intros Hf [H1 H2 H3]. constructor; [done|done|]. cbn. intros q po Hq.
  destruct (lookup_alter_inv _ _ _ _ _ Hq) as (x & Hx & [-> | ->]); [by eauto|].
  destruct (Hf x) as [-> ->]. eauto.
Qed.

Lemma call_hooked (cb : Callback) (arg : JsVal) (w : World) :
  hooked w → hooked (exec (call t cb arg) w).
Proof.
  intros Hw. destruct cb; cbn [call]; unfold_m; cbn [snd];
    try (by apply hooked_effects); try (by apply hooked_settle).
  - by apply hooked_this, hooked_effects.
  - cbn. destruct (socket (this w)); cbn;
      [by apply hooked_effects, hooked_conn, hooked_effects|by apply hooked_effects].
  - cbn. destruct (socket (this w)); cbn;
      [by apply hooked_effects, hooked_conn, hooked_effects|by apply hooked_effects].
Qed.

Lemma callAll_hooked (cbs : list Callback) (arg : JsVal) (w : World) :
  hooked w → hooked (exec (callAll t cbs arg) w).
Proof.
  revert w. induction cbs as [|cb cbs IH]; intros w Hw; [done|].
  unfold exec. cbn [callAll]. unfold mbind, M_bind.
  pose proof (call_hooked cb arg w Hw) as H. unfold exec in H.
  destruct (call t cb arg w) as [[] w1]. cbn in H. by apply IH.
Qed.

Lemma join_outcome_bindings (p : nat) (status : string) (o : Channel) :
  chan_bindings (join_outcome p status o) = chan_bindings o.
Proof. unfold join_outcome. by case_bool_decide. Qed.

Lemma init_hooked (i : IdentityService) (r : Relay) : hooked (init i r).
Proof. by constructor. Qed.

Lemma step_hooked (a : Action) (w w' : World) :
  hooked w → step t a w = Some w' → hooked w'.
Proof.
  intros Hw. destruct a; cbn [step].
  - intros [= <-]. unfold exec.
    destruct (identity_exists (identity w)) eqn:Hex;
      [destruct (connected (this w)) eqn:Hco|].
    + rewrite connect_guard; [done|by right].
    + rewrite (connect_proceeds w Hex Hco). cbn [snd].
      destruct Hw as [H1 H2 H3]. constructor; cbn -[String.append].
      * intros s so [[_ Hs] | [_ <-]]%lookup_snoc_Some; by eauto.
      * intros c co [[_ Hc] | [_ <-]]%lookup_snoc_Some; by eauto.
      * intros p po [[_ Hp] | [_ <-]]%lookup_snoc_Some; [by eauto|by left].
    + rewrite connect_guard; [done|by left].
  - intros [= <-]. unfold exec. destruct (channel (this w)) as [c|] eqn:Hc.
    + rewrite (send_channel to data w c Hc). cbn [snd].
      destruct Hw as [H1 H2 H3]. constructor; cbn; [done|done|].
      intros p po [[_ Hp] | [_ <-]]%lookup_snoc_Some.
      * destruct (H3 p po Hp) as [?|[? (q & Hq & ?)]]; [by left|right].
        split; [done|]. exists q. rewrite length_app. cbn. split; [lia|done].
      * right. split; [done|]. exists (length (promises w)).
        rewrite length_app. cbn. split; [lia|done].
    + rewrite (send_no_channel to data w Hc). by apply hooked_effects.
  - intros [= <-]. unfold exec. destruct (socket (this w)) as [s|] eqn:Hs.
    + rewrite (subscribeToChannel_socket channelName w s Hs). cbn [snd].
      destruct Hw as [H1 H2 H3]. constructor; cbn; [done| |].
      * intros c co [[_ Hc] | [_ <-]]%lookup_snoc_Some; by eauto.
      * intros p po [[_ Hp] | [_ <-]]%lookup_snoc_Some; [by eauto|by left].
    + rewrite (subscribeToChannel_no_socket channelName w Hs). by apply hooked_effects.
  - destruct (sockets w !! s) as [so|] eqn:Hs; [|done]. intros [= <-].
    unfold exec, socket_error, gets, mbind, M_bind. rewrite Hs.
    by apply callAll_hooked.
  - destruct (sockets w !! s) as [so|] eqn:Hs; [|done]. intros [= <-].
    unfold exec, socket_close, gets, mbind, M_bind. rewrite Hs.
    by apply callAll_hooked.
  - destruct (channels w !! c) as [co|] eqn:Hc; [|done]. intros [= <-].
    unfold exec, channel_trigger, gets, modify, mbind, M_bind, mret, M_ret.
    rewrite Hc.
    destruct (String.eqb event "phx_error"); [|destruct (String.eqb event "phx_close")].
    + apply callAll_hooked. by apply hooked_state.
    + apply callAll_hooked. by apply hooked_state.
    + by apply callAll_hooked.
  - destruct (pushes w !! p) as [po|] eqn:Hp; [|done].
    destruct (push_receivedResp po); [done|]. intros [= <-].
    unfold exec, push_reply, gets, modify, mbind, M_bind. rewrite Hp.
    apply callAll_hooked. apply hooked_state; [apply join_outcome_bindings|].
    by apply hooked_response.
  - intros [= <-]. destruct Hw. by constructor.
  - intros [= <-]. destruct Hw. by constructor.
Qed.

Lemma reachable_hooked (w : World) : reachable t w → hooked w.
Proof.
  induction 1 as [i r|a w w' _ IH Hstep]; [apply init_hooked|].
  by eapply step_hooked.
Qed.

(** ** Events on a reachable world *)

Lemma bound_three (status : string) (x y z : Callback) :
  bound status [("ok", x); ("error", y); ("timeout", z)] =
    if String.eqb "ok" status then [x]
    else if String.eqb "error" status then [y]
    else if String.eqb "timeout" status then [z]
    else [].
Proof.
  unfold bound. cbn -[String.eqb]. rewrite !decide_bool_decide.
  destruct (String.eqb "ok" status) eqn:E1;
    [apply String.eqb_eq in E1 as <-; by cbn|].
  destruct (String.eqb "error" status) eqn:E2;
    [apply String.eqb_eq in E2 as <-; by cbn|].
  destruct (String.eqb "timeout" status) eqn:E3;
    [apply String.eqb_eq in E3 as <-; by cbn|].
  by cbn.
Qed.

Lemma bound_channel (event : string) :
  bound event channelBindings =
    if String.eqb "phx_error" event then [CbOnChannelError]
    else if String.eqb "phx_close" event then [CbOnChannelClose]
    else if String.eqb "chat" event then [CbHandleMessage]
    else [].
Proof.
  unfold bound, channelBindings. cbn -[String.eqb]. rewrite !decide_bool_decide.
  destruct (String.eqb "phx_error" event) eqn:E1;
    [apply String.eqb_eq in E1 as <-; by cbn|].
  destruct (String.eqb "phx_close" event) eqn:E2;
    [apply String.eqb_eq in E2 as <-; by cbn|].
  destruct (String.eqb "chat" event) eqn:E3;
    [apply String.eqb_eq in E3 as <-; by cbn|].
  by cbn.
Qed.

Lemma push_reply_exec (p : nat) (status : string) (response : JsVal)
    (w : World) (po : Push) :
  pushes w !! p = Some po →
  exec (push_reply t p status response) w =
    exec (callAll t (bound status (push_recHooks po)) response)
      (with_channels (alter (join_outcome p status) (push_channel po))
         (with_pushes (alter (λ o,
            {| push_channel := push_channel o; push_event := push_event o;
               push_payload := push_payload o; push_recHooks := push_recHooks o;
               push_receivedResp := Some (status, response) |}) p) w)).
Proof.
  intros Hp. unfold exec, push_reply, gets, modify, mbind, M_bind. by rewrite Hp.
Qed.

Lemma channel_trigger_exec (c : nat) (event : string) (payload : JsVal)
    (w : World) (co : Channel) :
  channels w !! c = Some co →
  exec (channel_trigger t c event payload) w =
    exec (callAll t (bound event (chan_bindings co)) payload)
      (if String.eqb event "phx_error"
       then with_channels (alter (set_state errored) c) w
       else if String.eqb event "phx_close"
       then with_channels (alter (set_state closed) c) w
       else w).
Proof.
  intros Hc. unfold exec, channel_trigger, gets, modify, mbind, M_bind, mret, M_ret.
  rewrite Hc. by destruct (String.eqb event "phx_error"), (String.eqb event "phx_close").
Qed.

(** ** Socket events *)



(** ** Channel events *)

(** X3.  On a reachable world, a ["chat"] event of any channel in the
    store hands its payload, as it is, to the message processor once and
    changes nothing else. *)
Theorem chat_event_forwarded_once (c : nat) (data : JsVal) (w w' : World) :
  reachable t w →
  step t (ChannelEvent c "chat" data) w = Some w' →
  w' = with_effects (λ es, es ++ [ProcessorReceive data]) w.
Proof.
  intros Hr. pose proof (hooked_channels _ (reachable_hooked w Hr)) as Hh.
  cbn [step]. destruct (channels w !! c) as [co|] eqn:Hc; [|done]. intros [= <-].
  rewrite (channel_trigger_exec c "chat" data w co Hc), (Hh c co Hc). done.
Qed.

(** X4.  On a reachable world, an error or close event of any channel in
    the store disconnects the socket held in the [socket] field, whichever
    socket that channel was made on, and leaves the fields of the service
    as they were. *)
Theorem channel_fault_hits_current_socket
    (c s : nat) (payload : JsVal) (w w' : World) (event : string) :
  reachable t w →
  event = "phx_error" ∨ event = "phx_close" →
  socket (this w) = Some s →
  step t (ChannelEvent c event payload) w = Some w' →
  this w' = this w ∧
  sockets w' = alter (set_conn false) s (sockets w) ∧
  effects w' = effects w ++
    [ConsoleLog (JStr (if String.eqb event "phx_error"
                       then "channel errored" else "channel closed"));
     SocketDisconnect s].
Proof.
  intros Hr Hev Hs. pose proof (hooked_channels _ (reachable_hooked w Hr)) as Hh.
  cbn [step]. destruct (channels w !! c) as [co|] eqn:Hc; [|done]. intros [= <-].
  rewrite (channel_trigger_exec c event payload w co Hc), (Hh c co Hc), bound_channel.
  destruct Hev as [-> | ->]; cbn -[alter]; unfold_m; cbn -[alter]; rewrite Hs;
    cbn -[alter]; by rewrite <- app_assoc.
Qed.

(** ** Outcomes of a join and of a push *)

(** X5.  On a reachable world, the outcome of a join only notifies: ["ok"]
    shows the connected toast, ["error"] logs the reply with
    [console.error], the timeout logs the localized timeout status with
    [console.info].  None of them changes a field of the service, so a
    failed join leaves [connected] as [connect()] set it; no socket is
    disconnected and no promise is touched. *)
Theorem join_outcome_only_notifies
    (p : nat) (po : Push) (status : string) (response : JsVal) (w w' : World) :
  reachable t w →
  pushes w !! p = Some po →
  push_event po = "phx_join" →
  step t (PushReply p status response) w = Some w' →
  this w' = this w ∧ sockets w' = sockets w ∧ promises w' = promises w ∧
  effects w' = effects w ++
    (if String.eqb "ok" status then [ToastSuccess (t "connection.connected")]
     else if String.eqb "error" status then [ConsoleError response]
     else if String.eqb "timeout" status
     then [ConsoleInfo (JStr (t "connection.status.timeout"))]
     else []).
Proof.
  intros Hr Hp Hev. pose proof (hooked_pushes _ (reachable_hooked w Hr) p po Hp) as Hh.
  cbn [step]. rewrite Hp. destruct (push_receivedResp po); [done|]. intros [= <-].
  destruct Hh as [[_ Hh] | [Hh _]]; [|by rewrite Hev in Hh].
  rewrite (push_reply_exec p status response w po Hp), Hh. unfold joinHooks.
  rewrite bound_three.
  destruct (String.eqb "ok" status); [done|].
  destruct (String.eqb "error" status); [done|].
  destruct (String.eqb "timeout" status); [done|].
  cbn. by rewrite app_nil_r.
Qed.

(** X13.  On a reachable world, the outcome of the push of a [send]
    reaches one promise only: every other promise stays as it is, no
    toast or log is made and no field of the service or socket changes. *)
Theorem chat_outcome_stays_with_its_promise
    (p : nat) (po : Push) (status : string) (response : JsVal) (w w' : World) :
  reachable t w →
  pushes w !! p = Some po →
  push_event po = "chat" →
  step t (PushReply p status response) w = Some w' →
  this w' = this w ∧ sockets w' = sockets w ∧ effects w' = effects w ∧
  ∃ promise, push_recHooks po = chatHooks promise ∧
    ∀ q, q ≠ promise → promises w' !! q = promises w !! q.
Proof.
  intros Hr Hp Hev. pose proof (hooked_pushes _ (reachable_hooked w Hr) p po Hp) as Hh.
  cbn [step]. rewrite Hp. destruct (push_receivedResp po); [done|]. intros [= <-].
  destruct Hh as [[Hh _] | [_ (promise & _ & Hh)]]; [by rewrite Hev in Hh|].
  rewrite (push_reply_exec p status response w po Hp), Hh. unfold chatHooks.
  rewrite bound_three.
  destruct (String.eqb "ok" status);
    [|destruct (String.eqb "error" status);
      [|destruct (String.eqb "timeout" status)]];
    cbn -[alter]; (split; [done|]; split; [done|]; split; [done|]);
    exists promise; (split; [done|]); intros q Hq;
    unfold_m; cbn -[alter]; by rewrite ?list_lookup_alter_ne.
Qed.

(** ** What no call and no event does *)

(** X6.  No call and no event unsets the [socket] field or the [channel]
    field, and none removes a socket or a channel from the store. *)
Theorem fields_never_unset (a : Action) (w w' : World) :
  step t a w = Some w' →
  (is_Some (socket (this w)) → is_Some (socket (this w'))) ∧
  (is_Some (channel (this w)) → is_Some (channel (this w'))) ∧
  (∀ s, is_Some (sockets w !! s) → is_Some (sockets w' !! s)) ∧
  (∀ c, is_Some (channels w !! c) → is_Some (channels w' !! c)).
Proof.
  assert (Hst : ∀ v v', stable v v' →
    (is_Some (socket (this v)) → is_Some (socket (this v'))) ∧
    (is_Some (channel (this v)) → is_Some (channel (this v'))) ∧
    (∀ s, is_Some (sockets v !! s) → is_Some (sockets v' !! s)) ∧
    (∀ c, is_Some (channels v !! c) → is_Some (channels v' !! c))).
  { intros v v' [S1 S2 _ S4 S5 _ _]. rewrite S1, S2.
    split; [done|]. split; [done|]. split.
    - intros s Hs. apply lookup_lt_is_Some. rewrite S4. by apply lookup_lt_is_Some.
    - intros c [co Hc]. destruct (S5 c co Hc) as (co' & Hc' & _). by eauto. }
  destruct a; cbn [step].
  - intros [= <-]. unfold exec.
    destruct (identity_exists (identity w)) eqn:Hex;
      [destruct (connected (this w)) eqn:Hco|].
    + rewrite connect_guard; [done|by right].
    + rewrite (connect_proceeds w Hex Hco). cbn -[String.append].
      split; [by eauto|]. split; [by eauto|]. split.
      * intros s [so Hs]. exists so. by apply lookup_app_l_Some.
      * intros c [co Hc]. exists co. by apply lookup_app_l_Some.
    + rewrite connect_guard; [done|by left].
  - intros [= <-]. apply Hst, send_stable.
  - intros [= <-]. unfold exec. destruct (socket (this w)) as [s|] eqn:Hs.
    + rewrite (subscribeToChannel_socket channelName w s Hs). cbn.
      split; [by eauto|]. split; [by eauto|]. split; [done|].
      intros c [co Hc]. exists co. by apply lookup_app_l_Some.
    + rewrite (subscribeToChannel_no_socket channelName w Hs). cbn [snd].
      rewrite <- Hs. apply Hst, stable_effects_app.
  - destruct (sockets w !! s); [|done]. intros [= <-].
    apply Hst, socket_error_stable.
  - destruct (sockets w !! s); [|done]. intros [= <-].
    apply Hst, socket_close_stable.
  - destruct (channels w !! c); [|done]. intros [= <-].
    apply Hst, channel_trigger_stable.
  - destruct (pushes w !! p) as [o|]; [|done].
    destruct (push_receivedResp o); [done|]. intros [= <-].
    apply Hst, push_reply_stable.
  - by intros [= <-].
  - by intros [= <-].
Qed.

(** ** More on [connect], [subscribeToChannel] and [send] *)

(** X7.  A [connect()] that passes its guard leaves everything of an
    earlier session in place: the socket it stores is a new object, every
    socket and channel already in the store stays exactly as it was, with
    its transport and its registered functions, and no [disconnect()] is
    called. *)
Theorem connect_leaves_earlier_session (w : World) :
  identity_exists (identity w) = true →
  connected (this w) = false →
  let w' := exec (connect t) w in
  socket (this w') = Some (length (sockets w)) ∧
  sockets w !! length (sockets w) = None ∧
  (∀ s so, sockets w !! s = Some so → sockets w' !! s = Some so) ∧
  (∀ c co, channels w !! c = Some co → channels w' !! c = Some co) ∧
  (∀ s, SocketDisconnect s ∈ effects w' → SocketDisconnect s ∈ effects w).
Proof.
  intros Hex Hco w'. subst w'. unfold exec.
  rewrite (connect_proceeds w Hex Hco). cbn -[String.append].
  split; [done|]. split; [by apply lookup_ge_None_2|].
  split; [intros s so Hs; by apply lookup_app_l_Some|].
  split; [intros c co Hc; by apply lookup_app_l_Some|].
  intros s [Hs | Hs]%elem_of_app; [done|].
  apply list_elem_of_In in Hs. cbn in Hs.
  destruct Hs as [?|[?|[?|[?|[]]]]]; discriminate.
Qed.

(** X10.  When the identity exists but has no public key, a [connect()]
    that passes its guard goes on with the empty identifier: the new
    socket carries [uid = ""] and the channel joined is ["user:"]. *)
Theorem connect_without_key_uses_empty_id (w : World) :
  identity_exists (identity w) = true →
  connected (this w) = false →
  publicKey (identity w) = None →
  let w' := exec (connect t) w in
  (∃ so, sockets w' !! length (sockets w) = Some so ∧ sock_uid so = "" ∧
         socket (this w') = Some (length (sockets w))) ∧
  (∃ co, channels w' !! length (channels w) = Some co ∧ chan_topic co = "user:" ∧
         channel (this w') = Some (length (channels w))) ∧
  ChannelJoin (length (channels w)) ∈ effects w' ∧
  connected (this w') = true.
Proof.
  intros Hex Hco Hk w'. subst w'. unfold exec.
  rewrite (connect_proceeds w Hex Hco).
  assert (Hid : eval userChannelId w = "").
  { unfold eval. rewrite userChannelId_spec. cbn. by rewrite Hk. }
  cbn -[String.append]. rewrite Hid.
  split; [eexists; split; [apply lookup_last|done]|].
  split; [eexists; split; [apply lookup_last|done]|].
  split; [|done]. apply elem_of_app. right. repeat constructor.
Qed.

(** X11.  A [subscribeToChannel(channelName)] that finds the [socket]
    field unset shows the localized not-connected error toast and does
    nothing else: no channel is made, no join goes out and the [channel]
    field keeps what it held. *)
Theorem subscribeToChannel_without_socket (channelName : string) (w : World) :
  socket (this w) = None →
  let w' := exec (subscribeToChannel t channelName) w in
  this w' = this w ∧ channels w' = channels w ∧ pushes w' = pushes w ∧
  effects w' = effects w ++
    [ToastError (t "connection.errors.subscribe.notConnected")].
Proof.
  intros Hs w'. subst w'. unfold exec.
  by rewrite (subscribeToChannel_no_socket channelName w Hs).
Qed.

(** X12.  On a reachable world the channel in the [channel] field was
    made on the socket in the [socket] field, whether the service is
    connected or not. *)
Theorem channel_on_current_socket (w : World) (c : nat) :
  reachable t w →
  channel (this w) = Some c →
  ∃ co so, channels w !! c = Some co ∧
           socket (this w) = Some (chan_socket co) ∧
           sockets w !! chan_socket co = Some so.
Proof.
  intros Hr Hc. destruct (reachable_wired w Hr) as [_ W2 W3].
  destruct (W3 c Hc) as (co & Hco & Hs & _).
  destruct (W2 _ Hs) as [[so Hso] _]. by eauto.
Qed.

(** X9.  [send] does not read [connected]: with the flag set either way
    it returns the same result, makes the same calls and leaves the same
    pushes and promises. *)
Theorem send_ignores_connected (to data : string) (b : bool) (w : World) :
  let v := exec (set_connected b) w in
  eval (send t to data) v = eval (send t to data) w ∧
  effects (exec (send t to data) v) = effects (exec (send t to data) w) ∧
  pushes (exec (send t to data) v) = pushes (exec (send t to data) w) ∧
  promises (exec (send t to data) v) = promises (exec (send t to data) w) ∧
  connected (this (exec (send t to data) v)) = b.
Proof.
  intros v.
  assert (Hv : channel (this v) = channel (this w)) by done.
  unfold eval, exec. destruct (channel (this w)) as [c|] eqn:Hc.
  - rewrite (send_channel to data w c Hc), (send_channel to data v c Hv). done.
  - rewrite (send_no_channel to data w Hc), (send_no_channel to data v Hv). done.
Qed.

(** X8.  Two [send]s in a row get two different promises, and the
    outcome of either push leaves the promise of the other pending. *)
Theorem sends_are_independent
    (to1 data1 to2 data2 : string) (w : World) (c : nat) :
  channel (this w) = Some c →
  let w1 := exec (send t to1 data1) w in
  let w2 := exec (send t to2 data2) w1 in
  let promise1 := length (promises w) in
  let promise2 := S (length (promises w)) in
  let push1 := length (pushes w) in
  let push2 := S (length (pushes w)) in
  eval (send t to1 data1) w = RetPromise promise1 ∧
  eval (send t to2 data2) w1 = RetPromise promise2 ∧
  (∀ status response,
     promises (exec (push_reply t push2 status response) w2) !! promise1
       = Some Pending) ∧
  (∀ status response,
     promises (exec (push_reply t push1 status response) w2) !! promise2
       = Some Pending).
Proof.
  intros Hc w1 w2 promise1 promise2 push1 push2.
  assert (Hc1 : channel (this w1) = Some c).
  { subst w1. unfold exec. by rewrite (send_channel to1 data1 w c Hc). }
  assert (Hn1 : length (promises w1) = promise2).
  { subst w1. unfold exec. rewrite (send_channel to1 data1 w c Hc). cbn.
    rewrite length_app. cbn. subst promise2. lia. }
  assert (Hm1 : length (pushes w1) = push2).
  { subst w1. unfold exec. rewrite (send_channel to1 data1 w c Hc). cbn.
    rewrite length_app. cbn. subst push2. lia. }
  assert (Hq1 : pushes w1 !! push1 =
    Some {| push_channel := c; push_event := "chat";
            push_payload := JObj [("to", JStr to1); ("message", JStr data1)];
            push_recHooks := [("ok", CbResolve promise1); ("error", CbReject promise1);
                              ("timeout", CbRejectTimeout promise1)];
            push_receivedResp := None |}).
  { subst w1. unfold exec. rewrite (send_channel to1 data1 w c Hc). apply lookup_last. }
  assert (Hp1 : promises w1 !! promise1 = Some Pending).
  { subst w1. unfold exec. rewrite (send_channel to1 data1 w c Hc). apply lookup_last. }
  assert (E2 := send_channel to2 data2 w1 c Hc1). rewrite Hn1 in E2.
  assert (Hq1' : pushes w2 !! push1 =
    Some {| push_channel := c; push_event := "chat";
            push_payload := JObj [("to", JStr to1); ("message", JStr data1)];
            push_recHooks := [("ok", CbResolve promise1); ("error", CbReject promise1);
                              ("timeout", CbRejectTimeout promise1)];
            push_receivedResp := None |}).
  { subst w2. unfold exec. rewrite E2. cbn [snd pushes]. by apply lookup_app_l_Some. }
  assert (Hq2 : pushes w2 !! push2 =
    Some {| push_channel := c; push_event := "chat";
            push_payload := JObj [("to", JStr to2); ("message", JStr data2)];
            push_recHooks := [("ok", CbResolve promise2); ("error", CbReject promise2);
                              ("timeout", CbRejectTimeout promise2)];
            push_receivedResp := None |}).
  { subst w2. unfold exec. rewrite E2. cbn [snd pushes]. rewrite <- Hm1.
    apply lookup_last. }
  assert (Hp1' : promises w2 !! promise1 = Some Pending).
  { subst w2. unfold exec. rewrite E2. cbn [snd promises]. by apply lookup_app_l_Some. }
  assert (Hp2 : promises w2 !! promise2 = Some Pending).
  { subst w2. unfold exec. rewrite E2. cbn [snd promises]. rewrite <- Hn1.
    apply lookup_last. }
  assert (Hne : promise1 ≠ promise2) by (subst promise1 promise2; lia).
  split; [unfold eval; by rewrite (send_channel to1 data1 w c Hc)|].
  split; [unfold eval; by rewrite E2|].
  split.
  - intros status response.
    rewrite (push_reply_chat w2 push2 promise2 c _ status response Hq2).
    destruct (String.eqb "ok" status);
      [|destruct (String.eqb "error" status);
        [|destruct (String.eqb "timeout" status)]];
      by rewrite ?list_lookup_alter_ne.
  - intros status response.
    rewrite (push_reply_chat w2 push1 promise1 c _ status response Hq1').
    destruct (String.eqb "ok" status);
      [|destruct (String.eqb "error" status);
        [|destruct (String.eqb "timeout" status)]];
      by rewrite ?list_lookup_alter_ne.
Qed.

End Properties.

(** ** The theorems at the sample worlds *)

Lemma online_reachable : reachable keys online.
Proof.
  assert (H : step keys Connect fresh = Some online) by (vm_compute; reflexivity).
  exact (reachable_step keys Connect fresh online (reachable_init keys alice relay0) H).
Qed.

(** After one [connect()] the service is connected and the join is issued. *)
Lemma connected_implies_join_issued_witness :
  reachable keys online ∧ connected (this online) = true ∧ joinIssued online.
Proof.
  split; [exact online_reachable|]. split; [reflexivity|].
  apply (connected_implies_join_issued keys online online_reachable).
  reflexivity.
Defined.

(** C1 as stated fails right after [connect()]: the service is connected
    while its channel is still joining. *)
Lemma connected_before_join_outcome :
  reachable keys online ∧ connected (this online) = true ∧ ¬ liveAndJoined online.
Proof.
  split; [exact online_reachable|]. split; [reflexivity|].
  intros (s & so & c & co & _ & _ & _ & Hc & Hco & Hst).
  vm_compute in Hc. injection Hc as <-.
  vm_compute in Hco. injection Hco as <-.
  discriminate Hst.
Qed.

Lemma send_without_channel_witness :
  channel (this fresh) = None ∧
  eval (send keys "peer1" "hello") fresh = RetUndefined.
Proof.
  split; [reflexivity|].
  exact (proj1 (send_without_channel keys "peer1" "hello" fresh eq_refl)).
Defined.

(** C2 as stated fails on a new service: [send] returns no promise at
    all, so no rejected one. *)
Lemma send_not_connected_returns_undefined :
  channel (this fresh) = None ∧
  ¬ ∃ p reason,
      eval (send keys "peer1" "hello") fresh = RetPromise p ∧
      promises (exec (send keys "peer1" "hello") fresh) !! p = Some (Rejected reason).
Proof.
  split; [reflexivity|]. intros (p & reason & H & _).
  vm_compute in H. discriminate H.
Qed.

Lemma connect_without_identity_witness :
  identity_exists (identity anonymous) = false ∧
  sockets (exec (connect keys) anonymous) = sockets anonymous ∧
  connected (this (exec (connect keys) anonymous)) = false.
Proof.
  split; [reflexivity|].
  destruct (connect_without_identity keys anonymous eq_refl)
    as (Hs & _ & _ & _ & _ & Hc).
  split; [exact Hs|]. apply Hc. reflexivity.
Defined.

(** C3 as stated fails when the identity exists but has no key: a socket
    with an empty [uid] is made, the channel ["user:"] is joined and
    [connected] becomes true. *)
Lemma connect_proceeds_without_key :
  publicKey (identity unkeyed) = None ∧
  sock_uid <$> sockets (exec (connect keys) unkeyed) = [""] ∧
  chan_topic <$> channels (exec (connect keys) unkeyed) = ["user:"] ∧
  ChannelJoin 0 ∈ effects (exec (connect keys) unkeyed) ∧
  connected (this (exec (connect keys) unkeyed)) = true.
Proof.
  split; [reflexivity|]. split; [reflexivity|]. split; [reflexivity|].
  split; [|reflexivity]. vm_compute. repeat constructor.
Qed.

Lemma connect_sets_connected_at_join_issue_witness :
  identity_exists (identity fresh) = true ∧
  connected (this fresh) = false ∧
  connected (this (exec (connect keys) fresh)) = true ∧
  effects (exec (connect keys) fresh) =
    [ToastInfo "connection.connecting"; SocketConnect 0; ChannelJoin 0;
     DispatcherPingAll].
Proof.
  split; [reflexivity|]. split; [reflexivity|].
  destruct (connect_sets_connected_at_join_issue keys fresh eq_refl eq_refl)
    as (Hc & _ & _ & _ & He).
  split; [exact Hc|exact He].
Defined.

Lemma connect_idempotent_witness :
  connected (this online) = true ∧ exec (connect keys) online = online.
Proof.
  split; [reflexivity|].
  apply (proj1 (connect_idempotent keys online)). right. reflexivity.
Defined.

Lemma userChannelId_deterministic_witness :
  publicKey (identity fresh) = Some [x0a; xb1]%byte ∧
  eval userChannelId fresh = "0ab1".
Proof.
  split; [reflexivity|].
  exact (proj1 (proj2 (proj2 (userChannelId_deterministic keys)) fresh eq_refl)).
Defined.

Lemma subscribeToChannel_overwrites_channel_witness :
  socket (this online) = Some 0 ∧
  channel (this online) = Some 0 ∧
  channel (this (exec (subscribeToChannel keys "room:lobby,user:0ab1") online)) = Some 1.
Proof.
  split; [reflexivity|]. split; [reflexivity|].
  exact (proj1 (subscribeToChannel_overwrites_channel keys
                  "room:lobby,user:0ab1" online 0 eq_refl)).
Defined.

Lemma channel_fault_disconnects_socket_witness :
  socket (this online) = Some 0 ∧
  sockets (exec onChannelError online) = alter (set_conn false) 0 (sockets online).
Proof.
  split; [reflexivity|].
  destruct (channel_fault_disconnects_socket keys online) as [(_ & H & _) _].
  exact (proj1 (H 0 eq_refl)).
Defined.

(** C5 as stated fails on the connected service: after the error event,
    and after the close event, of its channel [connected] is still true. *)
Lemma channel_fault_leaves_connected :
  run keys [Connect; ChannelEvent 0 "phx_error" JUndefined] fresh = Some faulted ∧
  connected (this faulted) = true ∧
  run keys [Connect; ChannelEvent 0 "phx_close" JUndefined] fresh = Some hungUp ∧
  connected (this hungUp) = true.
Proof. vm_compute. repeat split. Qed.

Lemma channel_close_keeps_channel_witness :
  channel (this online) = Some 0 ∧
  channel (this hungUp) = Some 0 ∧
  eval (send keys "peer1" "hello") hungUp = RetPromise 0.
Proof.
  split; [reflexivity|].
  destruct (channel_close_keeps_channel keys 0 0 JUndefined "peer1" "hello" online eq_refl)
    as (Hc & Hs & _).
  split; [exact Hc|exact Hs].
Defined.

(** C6 as stated fails on the connected service: after the close event of
    its channel [send] returns a promise and pushes on the channel. *)
Lemma send_after_channel_close_pushes :
  run keys [Connect; ChannelEvent 0 "phx_close" JUndefined] fresh = Some hungUp ∧
  eval (send keys "peer1" "hello") hungUp = RetPromise 0 ∧
  effects (exec (send keys "peer1" "hello") hungUp) =
    effects hungUp ++
    [ChannelPush 0 "chat" (JObj [("to", JStr "peer1"); ("message", JStr "hello")])].
Proof. vm_compute. repeat split. Qed.

(** [send("peer1", "hello")] on the connected service, answered ["ok"]
    with [{status: "delivered"}]. *)
Lemma send_pushes_and_settles_witness :
  channel (this online) = Some 0 ∧
  promises (exec (push_reply keys 1 "ok" (JObj [("status", JStr "delivered")]))
              (exec (send keys "peer1" "hello") online)) !! 0
    = Some (Fulfilled (JObj [("status", JStr "delivered")])).
Proof.
  split; [reflexivity|].
  destruct (send_pushes_and_settles keys "peer1" "hello" online 0 eq_refl)
    as (_ & _ & _ & Hok & _ & _ & _ & _).
  exact (Hok (JObj [("status", JStr "delivered")])).
Defined.

(** ** More theorems at the sample worlds *)

Lemma dropped_reachable : reachable keys dropped.
Proof.
  assert (H : step keys (SocketClose 0) online = Some dropped)
    by (vm_compute; reflexivity).
  exact (reachable_step keys (SocketClose 0) online dropped online_reachable H).
Qed.

Lemma reconnected_reachable : reachable keys reconnected.
Proof.
  assert (H : step keys Connect dropped = Some reconnected)
    by (vm_compute; reflexivity).
  exact (reachable_step keys Connect dropped reconnected dropped_reachable H).
Qed.

Lemma sent_reachable : reachable keys sent.
Proof.
  assert (H : step keys (Send "peer1" "hello") online = Some sent)
    by (vm_compute; reflexivity).
  exact (reachable_step keys (Send "peer1" "hello") online sent online_reachable H).
Qed.



Lemma chat_event_forwarded_once_witness :
  step keys (ChannelEvent 0 "chat" (JObj [("message", JStr "hi")])) online
    = Some (exec (channel_trigger keys 0 "chat" (JObj [("message", JStr "hi")])) online) ∧
  exec (channel_trigger keys 0 "chat" (JObj [("message", JStr "hi")])) online =
    with_effects (λ es, es ++ [ProcessorReceive (JObj [("message", JStr "hi")])]) online.
Proof.
  assert (H : step keys (ChannelEvent 0 "chat" (JObj [("message", JStr "hi")])) online
    = Some (exec (channel_trigger keys 0 "chat" (JObj [("message", JStr "hi")])) online))
    by (vm_compute; reflexivity).
  split; [exact H|].
  exact (chat_event_forwarded_once keys 0 _ online _ online_reachable H).
Defined.

(** An error of the channel of the first session disconnects the socket
    of the second. *)
Lemma channel_fault_hits_current_socket_witness :
  chan_socket <$> channels reconnected !! 0 = Some 0 ∧
  socket (this reconnected) = Some 1 ∧
  sockets (exec (channel_trigger keys 0 "phx_error" JUndefined) reconnected) =
    alter (set_conn false) 1 (sockets reconnected).
Proof.
  assert (Hs : socket (this reconnected) = Some 1) by (vm_compute; reflexivity).
  assert (H : step keys (ChannelEvent 0 "phx_error" JUndefined) reconnected
    = Some (exec (channel_trigger keys 0 "phx_error" JUndefined) reconnected))
    by (vm_compute; reflexivity).
  split; [vm_compute; reflexivity|]. split; [exact Hs|].
  destruct (channel_fault_hits_current_socket keys 0 1 JUndefined reconnected _
              "phx_error" reconnected_reachable (or_introl eq_refl) Hs H)
    as (_ & Hsock & _).
  exact Hsock.
Defined.

(** The join of the connected service is refused. *)
Lemma join_outcome_only_notifies_witness :
  push_event <$> pushes online !! 0 = Some "phx_join" ∧
  connected (this (exec (push_reply keys 0 "error" (JStr "unauthorized")) online)) = true ∧
  effects (exec (push_reply keys 0 "error" (JStr "unauthorized")) online) =
    effects online ++ [ConsoleError (JStr "unauthorized")].
Proof.
  assert (Hp : ∃ po, pushes online !! 0 = Some po ∧ push_event po = "phx_join")
    by (eexists; split; vm_compute; reflexivity).
  destruct Hp as (po & Hp & Hev).
  assert (H : step keys (PushReply 0 "error" (JStr "unauthorized")) online
    = Some (exec (push_reply keys 0 "error" (JStr "unauthorized")) online))
    by (vm_compute; reflexivity).
  split; [vm_compute; reflexivity|].
  destruct (join_outcome_only_notifies keys 0 po "error" (JStr "unauthorized")
              online _ online_reachable Hp Hev H) as (Hthis & _ & _ & Heff).
  split; [rewrite Hthis; vm_compute; reflexivity|exact Heff].
Defined.

Lemma chat_outcome_stays_with_its_promise_witness :
  push_event <$> pushes sent !! 1 = Some "chat" ∧
  effects (exec (push_reply keys 1 "timeout" (JObj [])) sent) = effects sent ∧
  this (exec (push_reply keys 1 "timeout" (JObj [])) sent) = this sent.
Proof.
  assert (Hp : ∃ po, pushes sent !! 1 = Some po ∧ push_event po = "chat")
    by (eexists; split; vm_compute; reflexivity).
  destruct Hp as (po & Hp & Hev).
  assert (H : step keys (PushReply 1 "timeout" (JObj [])) sent
    = Some (exec (push_reply keys 1 "timeout" (JObj [])) sent))
    by (vm_compute; reflexivity).
  split; [vm_compute; reflexivity|].
  destruct (chat_outcome_stays_with_its_promise keys 1 po "timeout" (JObj [])
              sent _ sent_reachable Hp Hev H) as (Hthis & _ & Heff & _).
  split; [exact Heff|exact Hthis].
Defined.

Lemma fields_never_unset_witness :
  step keys (ChannelEvent 0 "phx_close" JUndefined) online = Some hungUp ∧
  is_Some (socket (this hungUp)) ∧ is_Some (channel (this hungUp)).
Proof.
  assert (H : step keys (ChannelEvent 0 "phx_close" JUndefined) online = Some hungUp)
    by (vm_compute; reflexivity).
  split; [exact H|].
  destruct (fields_never_unset keys _ online hungUp H) as (Hs & Hc & _).
  split; [apply Hs|apply Hc]; vm_compute; eauto.
Defined.

Lemma connect_leaves_earlier_session_witness :
  identity_exists (identity dropped) = true ∧
  connected (this dropped) = false ∧
  socket (this reconnected) = Some 1 ∧
  sockets reconnected !! 0 = sockets dropped !! 0.
Proof.
  assert (Hex : identity_exists (identity dropped) = true) by (vm_compute; reflexivity).
  assert (Hco : connected (this dropped) = false) by (vm_compute; reflexivity).
  assert (Hso : ∃ so, sockets dropped !! 0 = Some so)
    by (eexists; vm_compute; reflexivity).
  destruct Hso as [so Hso].
  split; [exact Hex|]. split; [exact Hco|].
  destruct (connect_leaves_earlier_session keys dropped Hex Hco)
    as (Hs & _ & Hold & _ & _).
  split; [exact Hs|]. rewrite Hso. exact (Hold 0 so Hso).
Defined.

Lemma connect_without_key_uses_empty_id_witness :
  publicKey (identity unkeyed) = None ∧
  connected (this (exec (connect keys) unkeyed)) = true ∧
  ChannelJoin 0 ∈ effects (exec (connect keys) unkeyed).
Proof.
  split; [reflexivity|].
  destruct (connect_without_key_uses_empty_id keys unkeyed eq_refl eq_refl eq_refl)
    as (_ & _ & Hj & Hc).
  split; [exact Hc|exact Hj].
Defined.

Lemma subscribeToChannel_without_socket_witness :
  socket (this fresh) = None ∧
  channels (exec (subscribeToChannel keys "room:lobby,user:0ab1") fresh) = [] ∧
  effects (exec (subscribeToChannel keys "room:lobby,user:0ab1") fresh) =
    [ToastError "connection.errors.subscribe.notConnected"].
Proof.
  split; [reflexivity|].
  destruct (subscribeToChannel_without_socket keys "room:lobby,user:0ab1" fresh eq_refl)
    as (_ & Hc & _ & He).
  split; [exact Hc|exact He].
Defined.

Lemma channel_on_current_socket_witness :
  channel (this reconnected) = Some 1 ∧
  ∃ co so, channels reconnected !! 1 = Some co ∧
           socket (this reconnected) = Some (chan_socket co) ∧
           sockets reconnected !! chan_socket co = Some so.
Proof.
  assert (Hc : channel (this reconnected) = Some 1) by (vm_compute; reflexivity).
  split; [exact Hc|].
  exact (channel_on_current_socket keys reconnected 1 reconnected_reachable Hc).
Defined.

Lemma sends_are_independent_witness :
  channel (this online) = Some 0 ∧
  promises (exec (push_reply keys 2 "ok" (JObj [("status", JStr "delivered")]))
              (exec (send keys "peer2" "again") (exec (send keys "peer1" "hello") online)))
    !! 0 = Some Pending.
Proof.
  assert (Hc : channel (this online) = Some 0) by (vm_compute; reflexivity).
  split; [exact Hc|].
  destruct (sends_are_independent keys "peer1" "hello" "peer2" "again" online 0 Hc)
    as (_ & _ & H & _).
  exact (H "ok" (JObj [("status", JStr "delivered")])).
Defined.

(** * Properties of EmbeddedResource *)

(** ** The matcher *)

Lemma star_inv {R} (p : N → bool) (s : list N) (k : list N → option R) (r : R) :
  star p s k = Some r →
  ∃ n, (n ≤ length s)%nat ∧ forallb p (take n s) = true ∧ k (drop n s) = Some r.
Proof.
  assert (Hstop : ∀ s', k s' = Some r →
    ∃ n, (n ≤ length s')%nat ∧ forallb p (take n s') = true ∧ k (drop n s') = Some r).
  { intros s' H. exists 0. split; [lia|]. by rewrite take_0, drop_0. }
  induction s as [|u s IH]; cbn [star]; [by apply Hstop|].
  destruct (p u) eqn:Hu; [|by apply Hstop].
  destruct (star p s k) as [r'|] eqn:Hs; [|by apply Hstop].
  intros [= <-]. destruct (IH eq_refl) as (n & Hn & Hp & Hk).
  exists (S n). cbn. rewrite Hu. split; [lia|done].
Qed.

Lemma star_all {R} (p : N → bool) (s : list N) (k : list N → option R) (r : R) :
  forallb p s = true → k [] = Some r → star p s k = Some r.
Proof.
  intros Hp Hk. induction s as [|u s IH]; cbn [star]; [done|].
  cbn in Hp. apply andb_true_iff in Hp as [-> Hp]. by rewrite IH.
Qed.

Lemma star_fail {R} (p : N → bool) (s : list N) (k : list N → option R) :
  (∀ s', s' `suffix_of` s → k s' = None) → star p s k = None.
Proof.
  induction s as [|u s IH]; intros Hk; cbn [star]; [by apply Hk|].
  rewrite IH by (intros s' Hs'; apply Hk; by apply suffix_cons_r).
  rewrite (Hk (u :: s)) by done. by destruct (p u).
Qed.

(** The star stops where the rest of the pattern matches and matches at
    no start further right. *)
Lemma star_last {R} (p : N → bool) (a b : list N) (k : list N → option R) (r : R) :
  forallb p a = true →
  k b = Some r →
  (∀ b', b' `suffix_of` b → b' ≠ b → k b' = None) →
  star p (a ++ b) k = Some r.
Proof.
  intros Ha Hk Hlast. induction a as [|u a IH]; cbn [app star].
  - destruct b as [|u b]; cbn [star]; [done|].
    rewrite star_fail.
    + rewrite Hk. by destruct (p u).
    + intros s' Hs'. apply Hlast; [by apply suffix_cons_r|].
      intros ->. apply suffix_length in Hs'. cbn in Hs'. lia.
  - cbn in Ha. apply andb_true_iff in Ha as [-> Ha]. by rewrite IH.
Qed.

Lemma matchHere_fail (input : list N) (r : Regex) (s : list N) (caps : Captures)
    (k : list N → Captures → option Captures) :
  (∀ s' caps', s' `suffix_of` s → k s' caps' = None) →
  matchHere input r s caps k = None.
Proof.
  revert s caps k. induction r as [| |p|r1 IH1 r2 IH2|r1 IH1 r2 IH2|p|n r IH];
    intros s caps k Hk; cbn [matchHere].
  - rewrite Hk by done. by destruct (length s =? length input)%nat.
  - by apply Hk.
  - destruct s as [|u s]; [done|]. rewrite Hk by (by apply suffix_cons_r).
    by destruct (p u).
  - apply IH1. intros s' caps' Hs'. apply IH2. intros s'' caps'' Hs''.
    apply Hk. by etrans.
  - rewrite IH1 by done. by apply IH2.
  - apply star_fail. intros s' Hs'. by apply Hk.
  - apply IH. intros s' caps' Hs'. by apply Hk.
Qed.

Lemma matchHere_inv (input : list N) (r : Regex) (s : list N) (caps : Captures)
    (k : list N → Captures → option Captures) (res : Captures) :
  matchHere input r s caps k = Some res →
  ∃ s' caps', s' `suffix_of` s ∧ k s' caps' = Some res.
Proof.
  revert s caps k. induction r as [| |p|r1 IH1 r2 IH2|r1 IH1 r2 IH2|p|n r IH];
    intros s caps k; cbn [matchHere].
  - destruct (length s =? length input)%nat; [|done]. by eauto.
  - by eauto.
  - destruct s as [|u s]; [done|]. destruct (p u); [|done].
    intros H. exists s, caps. split; [by apply suffix_cons_r|done].
  - intros H. destruct (IH1 _ _ _ H) as (s1 & caps1 & Hs1 & H1).
    destruct (IH2 _ _ _ H1) as (s2 & caps2 & Hs2 & H2).
    exists s2, caps2. split; [by etrans|done].
  - destruct (matchHere input r1 s caps k) eqn:E1.
    + intros [= <-]. by apply IH1 in E1.
    + by apply IH2.
  - intros H. destruct (star_inv _ _ _ _ H) as (n & _ & _ & Hk).
    exists (drop n s), caps. split; [apply suffix_drop|done].
  - intros H. destruct (IH _ _ _ H) as (s1 & caps1 & Hs1 & H1). by eauto.
Qed.

(** A pattern is blocked by a set of units when it needs a unit outside
    the set. *)
Fixpoint blocked (P : N → bool) (r : Regex) : Prop :=
  match r with
  | Atom p => ∀ u, P u = true → p u = false
  | Seq r1 r2 => blocked P r1 ∨ blocked P r2
  | Alt r1 r2 => blocked P r1 ∧ blocked P r2
  | Group _ r1 => blocked P r1
  | _ => False
  end.

Lemma forallb_suffix (P : N → bool) (s s' : list N) :
  s' `suffix_of` s → forallb P s = true → forallb P s' = true.
Proof.
  intros [a ->]. rewrite forallb_app. by intros [_ ?]%andb_true_iff.
Qed.

Lemma blocked_fail (P : N → bool) (input : list N) (r : Regex) (s : list N)
    (caps : Captures) (k : list N → Captures → option Captures) :
  blocked P r → forallb P s = true → matchHere input r s caps k = None.
Proof.
  revert s caps k. induction r as [| |p|r1 IH1 r2 IH2|r1 IH1 r2 IH2|p|n r IH];
    intros s caps k; cbn [blocked matchHere]; try done.
  - intros Hb Hs. destruct s as [|u s]; [done|]. cbn in Hs.
    apply andb_true_iff in Hs as [Hu _]. by rewrite (Hb u Hu).
  - intros [Hb | Hb] Hs; [by apply IH1|].
    apply matchHere_fail. intros s' caps' Hs'. apply IH2; [done|].
    by eapply forallb_suffix.
  - intros [Hb1 Hb2] Hs. rewrite IH1 by done. by apply IH2.
  - intros Hb Hs. by apply IH.
Qed.

Lemma matchHere_lit (input : list N) (str : string) (rest : list N)
    (caps : Captures) (k : list N → Captures → option Captures) :
  matchHere input (lit str) (codes str ++ rest) caps k = k rest caps.
Proof.
  induction str as [|c str IH]; cbn [lit matchHere]; [done|].
  change (codes (String c str)) with (N_of_ascii c :: codes str). cbn [app].
  unfold chr at 1. by rewrite N.eqb_refl.
Qed.

Lemma matchHere_lit_inv (input : list N) (str : string) (s : list N)
    (caps : Captures) (k : list N → Captures → option Captures) (res : Captures) :
  matchHere input (lit str) s caps k = Some res →
  ∃ rest, s = codes str ++ rest ∧ k rest caps = Some res.
Proof.
  revert s. induction str as [|c str IH]; intros s; cbn [lit matchHere].
  - intros H. by exists s.
  - destruct s as [|u s]; [done|]. unfold chr at 1.
    destruct (N.eqb_spec (N_of_ascii c) u) as [<-|]; [|done].
    intros H. destruct (IH _ H) as (rest & -> & Hk). by exists rest.
Qed.

Lemma search_here (input : list N) (r : Regex) (s : list N) (caps : Captures) :
  matchHere input r s noCaptures (λ s' caps', Some (capture 0 (consumed s s') caps'))
    = Some caps →
  search input r s = Some caps.
Proof. intros H. destruct s; cbn [search]; by rewrite H. Qed.

Lemma search_inv (input : list N) (r : Regex) (s : list N) (caps : Captures) :
  search input r s = Some caps →
  ∃ s', s' `suffix_of` s ∧
    matchHere input r s' noCaptures
      (λ s'' caps', Some (capture 0 (consumed s' s'') caps')) = Some caps.
Proof.
  induction s as [|u s IH]; cbn [search].
  - destruct (matchHere input r [] noCaptures _) eqn:E; [|done].
    intros [= <-]. by exists [].
  - destruct (matchHere input r (u :: s) noCaptures _) eqn:E.
    + intros [= <-]. by exists (u :: s).
    + intros H. destruct (IH H) as (s' & Hs' & H'). exists s'.
      split; [by apply suffix_cons_r|done].
Qed.

Lemma search_suffix (input : list N) (r : Regex) (s s' : list N) (caps : Captures) :
  s' `suffix_of` s →
  matchHere input r s' noCaptures
    (λ s'' caps', Some (capture 0 (consumed s' s'') caps')) = Some caps →
  matched (search input r s) = true.
Proof.
  intros [a ->] H. induction a as [|u a IH]; cbn [app].
  - by rewrite (search_here _ _ _ _ H).
  - cbn [search]. destruct (matchHere input r (u :: a ++ s') noCaptures _); [done|].
    exact IH.
Qed.

(** ** [parseUrl] *)

Lemma consumed_drop (s : list N) (n : nat) :
  (n ≤ length s)%nat → consumed s (drop n s) = take n s.
Proof.
  intros Hn. unfold consumed. rewrite length_drop. f_equal. lia.
Qed.

(** Group 2 of a match of a pattern shaped as [YT_PATTERN] is a piece of
    the input without [#], [&] and [?]. *)
Lemma yt_group2 (input : list N) (markers : Regex) (caps : Captures) :
  search input
    (Seq Bol (Seq (Star dot) (Seq (Group 1 markers)
       (Seq (Group 2 (Star (noneOf "#&?"))) (Star dot))))) input = Some caps →
  ∃ pre g post,
    input = pre ++ g ++ post ∧ forallb (noneOf "#&?") g = true ∧ caps 2 = Some g.
Proof.
  intros H. apply search_inv in H as (s0 & Hs0 & H). cbn [matchHere] in H.
  destruct (length s0 =? length input)%nat; [|done].
  apply star_inv in H as (n1 & _ & _ & H).
  apply matchHere_inv in H as (s2 & caps2 & Hs2 & H).
  apply star_inv in H as (n2 & Hn2 & Hg & H).
  apply star_inv in H as (n3 & _ & _ & H).
  injection H as <-.
  assert (Hsuf : s2 `suffix_of` input).
  { etrans; [exact Hs2|]. etrans; [apply suffix_drop|exact Hs0]. }
  destruct Hsuf as [pre ->].
  exists pre, (take n2 s2), (drop n2 s2).
  split; [by rewrite take_drop|]. split; [done|].
  cbn. by rewrite consumed_drop.
Qed.

Lemma image_match (input : list N) :
  matched (regexMatch IMAGE_PATTERN input) = true ↔
  ∃ pre ext post,
    ext ∈ ["jpg"; "png"; "gif"] ∧ input = pre ++ codes ext ++ post.
Proof.
  unfold regexMatch. split.
  - destruct (search input IMAGE_PATTERN input) as [caps|] eqn:H; [|done].
    intros _. apply search_inv in H as (s & [pre ->] & H).
    unfold IMAGE_PATTERN in H. cbn [matchHere] in H.
    destruct (matchHere _ (lit "jpg") s _ _) eqn:E1.
    { apply matchHere_lit_inv in E1 as (post & -> & _).
      exists pre, "jpg", post. split; [repeat constructor|done]. }
    destruct (matchHere _ (lit "png") s _ _) eqn:E2.
    { apply matchHere_lit_inv in E2 as (post & -> & _).
      exists pre, "png", post. split; [repeat constructor|done]. }
    apply matchHere_lit_inv in H as (post & -> & _).
    exists pre, "gif", post. split; [repeat constructor|done].
  - intros (pre & ext & post & Hext & ->).
    assert (Hm : ∃ caps,
      matchHere (pre ++ codes ext ++ post) IMAGE_PATTERN (codes ext ++ post) noCaptures
        (λ s' caps', Some (capture 0 (consumed (codes ext ++ post) s') caps'))
        = Some caps).
    { unfold IMAGE_PATTERN. cbn [matchHere].
      destruct (matchHere _ (lit "jpg") _ _ _) eqn:E1; [by eauto|].
      destruct (matchHere _ (lit "png") _ _ _) eqn:E2; [by eauto|].
      apply list_elem_of_In in Hext. cbn in Hext.
      destruct Hext as [<-|[<-|[<-|[]]]].
      - by rewrite matchHere_lit in E1.
      - by rewrite matchHere_lit in E2.
      - rewrite matchHere_lit. by eauto. }
    destruct Hm as [caps Hm].
    eapply search_suffix; [|exact Hm]. by apply suffix_app_r.
Qed.

(** X14.  When [parseUrl] marks a new component as YouTube, the embed
    address is the nocookie prefix followed by a video id that is a
    non-empty piece of the URL without [#], [&] and [?]; the component is
    not marked as an image. *)
Theorem parseUrl_youtube (u : list N) :
  isYouTube (parseUrl (newEmbeddedResource u)) = true →
  ∃ pre videoId post,
    u = pre ++ videoId ++ post ∧ videoId ≠ [] ∧
    forallb (noneOf "#&?") videoId = true ∧
    embedUrl (parseUrl (newEmbeddedResource u)) =
      Some (codes "https://www.youtube-nocookie.com/embed/" ++ videoId) ∧
    isImage (parseUrl (newEmbeddedResource u)) = false.
Proof.
  unfold parseUrl. cbn [url newEmbeddedResource].
  destruct (regexMatch YT_PATTERN u) as [caps|] eqn:H; cbn [matched group andb].
  - destruct (yt_group2 u YT_MARKERS caps H) as (pre & g & post & -> & Hg & Hc).
    rewrite Hc. destruct g as [|x g]; cbn [truthy].
    + by destruct (matched (regexMatch IMAGE_PATTERN _)).
    + intros _. exists pre, (x :: g), post. by cbn.
  - by destruct (matched (regexMatch IMAGE_PATTERN u)).
Qed.

(** X15.  [parseUrl] marks a new component as an image exactly when it
    does not mark it as YouTube and the URL holds [jpg], [png] or [gif]
    somewhere, be it in the host, the path or the query. *)
Theorem parseUrl_image (u : list N) :
  isImage (parseUrl (newEmbeddedResource u)) = true ↔
  isYouTube (parseUrl (newEmbeddedResource u)) = false ∧
  ∃ pre ext post, ext ∈ ["jpg"; "png"; "gif"] ∧ u = pre ++ codes ext ++ post.
Proof.
  rewrite <- image_match. unfold parseUrl. cbn [url newEmbeddedResource].
  destruct (matched (regexMatch YT_PATTERN u) && truthy (group (regexMatch YT_PATTERN u) 2));
    cbn; [by intuition|].
  destruct (matched (regexMatch IMAGE_PATTERN u)); cbn; by intuition.
Qed.

(** X17.  After the Open Graph answer has come in, the component renders
    exactly when the URL was taken for YouTube or for an image, or the
    answer has both a title and a description that are not empty. *)
Theorem shouldRender_after_fetch (u : list N) (og : OpenGraphData) :
  let c := fetchOpenGraph og (parseUrl (newEmbeddedResource u)) in
  shouldRender c =
    isYouTube c || isImage c || (truthy (og_title og) && truthy (og_description og)).
Proof.
  cbv zeta. unfold shouldRender, fetchOpenGraph, parseUrl.
  cbn [url newEmbeddedResource embedUrl isImage isYouTube hasOgData default].
  destruct (matched (regexMatch YT_PATTERN u) && truthy (group (regexMatch YT_PATTERN u) 2));
    [done|].
  by destruct (matched (regexMatch IMAGE_PATTERN u)).
Qed.

(** ** Links that end in a video id *)

Lemma fails_from_cons {R} (K : list N → option R) (x : N) (l : list N) :
  K (x :: l) = None →
  (∀ b, b `suffix_of` l → K b = None) →
  ∀ b, b `suffix_of` x :: l → K b = None.
Proof.
  intros Hx Hl b Hb. destruct b as [|y b]; [apply Hl, suffix_nil|].
  apply suffix_cons_inv in Hb as [[= -> ->] | Hb]; [done|by apply Hl].
Qed.

Lemma fails_proper {R} (K : list N → option R) (x : N) (l : list N) :
  (∀ b, b `suffix_of` l → K b = None) →
  ∀ b, b `suffix_of` x :: l → b ≠ x :: l → K b = None.
Proof.
  intros Hl b Hb Hne. destruct b as [|y b]; [apply Hl, suffix_nil|].
  apply suffix_cons_inv in Hb as [E | Hb]; [done|by apply Hl].
Qed.

Lemma idUnit_not (c : ascii) :
  idUnit (N_of_ascii c) = false → ∀ u, idUnit u = true → chr c u = false.
Proof.
  intros Hc u Hu. unfold chr. destruct (N.eqb_spec (N_of_ascii c) u) as [<-|]; [|done].
  by rewrite Hu in Hc.
Qed.

Lemma markers_blocked : blocked idUnit YT_MARKERS.
Proof.
  unfold YT_MARKERS. cbn [blocked lit].
  repeat split; repeat first [left; apply idUnit_not; reflexivity | right].
Qed.

Lemma idUnit_class (s : list N) :
  forallb idUnit s = true → forallb (noneOf "#&?") s = true.
Proof.
  induction s as [|u s IH]; [done|]. cbn [forallb].
  intros [Hu Hs]%andb_true_iff. rewrite IH by done. rewrite andb_true_r.
  unfold noneOf. change (codes "#&?") with [35; 38; 63]%N. cbn [existsb].
  destruct (N.eqb_spec u 35) as [->|]; [done|].
  destruct (N.eqb_spec u 38) as [->|]; [done|].
  by destruct (N.eqb_spec u 63) as [->|].
Qed.

Lemma marker_here (input : list N) (marker : string) (rest : list N)
    (caps : Captures) (k : list N → Captures → option Captures) :
  marker ∈ ["youtu.be/"; "v/"; "embed/"; "watch?v="; "&v="] →
  matchHere input YT_MARKERS (codes marker ++ rest) caps k = k rest caps.
Proof.
  intros Hm. apply list_elem_of_In in Hm. cbn in Hm.
  destruct Hm as [<-|[<-|[<-|[<-|[<-|[]]]]]];
    vm_compute; by destruct (k rest caps).
Qed.

Lemma marker_tails (input : list N) (marker : string) (rest : list N) :
  marker ∈ ["youtu.be/"; "v/"; "embed/"; "watch?v="; "&v="] →
  (∀ b caps k, b `suffix_of` rest → matchHere input YT_MARKERS b caps k = None) →
  ∀ b caps k, b `suffix_of` codes marker ++ rest → b ≠ codes marker ++ rest →
              matchHere input YT_MARKERS b caps k = None.
Proof.
  intros Hm Hrest b caps k. revert b.
  apply list_elem_of_In in Hm. cbn in Hm.
  destruct Hm as [<-|[<-|[<-|[<-|[<-|[]]]]]]; eval_codes; cbn [app];
    apply (fails_proper (λ b, matchHere input YT_MARKERS b caps k));
    repeat (apply (fails_from_cons (λ b, matchHere input YT_MARKERS b caps k));
            [vm_compute; reflexivity|]);
    intros b Hb; by apply Hrest.
Qed.

Lemma consumed_app (a b : list N) : consumed (a ++ b) b = a.
Proof.
  unfold consumed. rewrite length_app.
  replace (length a + length b - length b)%nat with (length a) by lia.
  by rewrite take_app_length.
Qed.

Lemma consumed_nil (s : list N) : consumed s [] = s.
Proof. rewrite <- (app_nil_r s) at 1. apply consumed_app. Qed.

(** X16.  A URL made of a part without line terminators, one of the
    markers [youtu.be/], [v/], [embed/], [watch?v=] and [&v=], and a
    non-empty video id of letters, digits, [_] and [-] up to its end is
    taken for YouTube, with exactly that id in the embed address. *)
Theorem parseUrl_youtube_link (pre videoId : list N) (marker : string) :
  marker ∈ ["youtu.be/"; "v/"; "embed/"; "watch?v="; "&v="] →
  forallb dot pre = true →
  videoId ≠ [] →
  forallb idUnit videoId = true →
  let c := parseUrl (newEmbeddedResource (pre ++ codes marker ++ videoId)) in
  isYouTube c = true ∧ isImage c = false ∧
  embedUrl c = Some (codes "https://www.youtube-nocookie.com/embed/" ++ videoId).
Proof.
  intros Hm Hpre Hne Hid.
  set (u := pre ++ codes marker ++ videoId).
  assert (H : ∃ caps, regexMatch YT_PATTERN u = Some caps ∧ caps 2 = Some videoId).
  { eexists. split.
    - apply search_here. unfold YT_PATTERN. cbn [matchHere].
      rewrite Nat.eqb_refl. subst u. apply star_last; [exact Hpre| |].
      + rewrite marker_here by done.
        apply star_all; [by apply idUnit_class|]. cbn [star]. reflexivity.
      + intros b Hb Hbne. apply (marker_tails _ marker videoId); [done| |done|done].
        intros b' caps' k' Hb'. apply (blocked_fail idUnit); [apply markers_blocked|].
        by eapply forallb_suffix.
    - cbn. by rewrite consumed_nil. }
  destruct H as (caps & Hcaps & H2).
  cbv zeta. fold u. unfold parseUrl. cbn [url newEmbeddedResource].
  rewrite Hcaps. cbn [matched group andb]. rewrite H2.
  destruct videoId as [|x videoId]; [done|]. by cbn.
Qed.

(** ** The theorems at sample links *)

Lemma parseUrl_youtube_witness :
  isYouTube (parseUrl (newEmbeddedResource (codes "https://youtu.be/abc?t=10"))) = true ∧
  ∃ pre videoId post,
    codes "https://youtu.be/abc?t=10" = pre ++ videoId ++ post ∧ videoId ≠ [] ∧
    forallb (noneOf "#&?") videoId = true ∧
    embedUrl (parseUrl (newEmbeddedResource (codes "https://youtu.be/abc?t=10"))) =
      Some (codes "https://www.youtube-nocookie.com/embed/" ++ videoId) ∧
    isImage (parseUrl (newEmbeddedResource (codes "https://youtu.be/abc?t=10"))) = false.
Proof.
  assert (H : isYouTube (parseUrl (newEmbeddedResource
                (codes "https://youtu.be/abc?t=10"))) = true)
    by (vm_compute; reflexivity).
  split; [exact H|].
  exact (parseUrl_youtube (codes "https://youtu.be/abc?t=10") H).
Defined.

Lemma parseUrl_image_witness :
  isImage (parseUrl (newEmbeddedResource (codes "https://example.com/cat.png"))) = true.
Proof.
  apply (proj2 (parseUrl_image (codes "https://example.com/cat.png"))).
  split; [vm_compute; reflexivity|].
  exists (codes "https://example.com/cat."), "png", [].
  split; [repeat constructor|vm_compute; reflexivity].
Defined.

Lemma parseUrl_youtube_link_witness :
  embedUrl (parseUrl (newEmbeddedResource
    (codes "https://www.youtube.com/" ++ codes "watch?v=" ++ codes "dQw4w9WgXcQ"))) =
    Some (codes "https://www.youtube-nocookie.com/embed/" ++ codes "dQw4w9WgXcQ").
Proof.
  assert (Hm : "watch?v=" ∈ ["youtu.be/"; "v/"; "embed/"; "watch?v="; "&v="])
    by (repeat constructor).
  assert (Hpre : forallb dot (codes "https://www.youtube.com/") = true)
    by (vm_compute; reflexivity).
  assert (Hne : codes "dQw4w9WgXcQ" ≠ []) by (vm_compute; discriminate).
  assert (Hid : forallb idUnit (codes "dQw4w9WgXcQ") = true)
    by (vm_compute; reflexivity).
  destruct (parseUrl_youtube_link (codes "https://www.youtube.com/")
              (codes "dQw4w9WgXcQ") "watch?v=" Hm Hpre Hne Hid) as (_ & _ & H).
  exact H.
Defined.
